(** * Factorised distributions (distributions/factorised.py)

    A shallow embedding of [_iterate_parts], [_FactorisedSupport],
    [Factorised] and [_kl_factorised_factorised], with the Python and torch
    operations they rely on (sequence indexing, trailing-axis slicing,
    [torch.cat], generators, [zip], [sum], [all]) written out.

    Component distributions are external objects: they appear as records of
    the capabilities the module calls.  Floating-point arithmetic is kept
    abstract behind [py_add]. *)

From Stdlib Require Import List Arith ZArith Lia Bool.
Import ListNotations.

Set Implicit Arguments.

(** ** Exceptions and results *)

Inductive exn : Type :=
| IndexError
| RuntimeError
| ValueError
| TypeError
| NotImplementedError.

Inductive result (T : Type) : Type :=
| Ok (x : T)
| Err (e : exn).

Arguments Ok {T} x.
Arguments Err {T} e.

Definition bind {T U : Type} (c : result T) (k : T -> result U) : result U :=
  match c with
  | Ok x => k x
  | Err e => Err e
  end.

Notation "x <- c ;; k" := (bind c (fun x => k))
  (at level 61, c at next level, right associativity).

Definition is_ok {T : Type} (c : result T) : bool :=
  match c with Ok _ => true | Err _ => false end.

(** [[f(x) for x in xs]]: a list comprehension evaluates left to right and
    stops at the first exception. *)
Fixpoint comprehension {S T : Type} (f : S -> result T) (xs : list S)
  : result (list T) :=
  match xs with
  | [] => Ok []
  | x :: xs' => y <- f x ;; ys <- comprehension f xs' ;; Ok (y :: ys)
  end.

(** [seq[i]] on a Python sequence: a negative index counts from the end, an
    index outside [-len, len) raises IndexError. *)
Definition getitem {T : Type} (l : list T) (i : Z) : result T :=
  let n := Z.of_nat (length l) in
  let j := if (i <? 0)%Z then (i + n)%Z else i in
  if (j <? 0)%Z then Err IndexError
  else match nth_error l (Z.to_nat j) with
       | Some x => Ok x
       | None => Err IndexError
       end.

(** ** Tensors

    [torch.Size] is a tuple of dimensions.  A tensor is either
    zero-dimensional or has a trailing axis: then it is stored as its leading
    shape, the size of the trailing axis, and one row of trailing-axis
    elements per leading position (row-major). *)

Definition Size := list nat.

Fixpoint Size_eqb (a b : Size) : bool :=
  match a, b with
  | [], [] => true
  | x :: a', y :: b' => Nat.eqb x y && Size_eqb a' b'
  | _, _ => false
  end.

Definition numel (s : Size) : nat := fold_right Nat.mul 1 s.

Inductive tensor (A : Type) : Type :=
| T0 (x : A)
| TN (lead : Size) (width : nat) (rows : list (list A)).

Arguments T0 {A} x.
Arguments TN {A} lead width rows.

Definition shape {A : Type} (t : tensor A) : Size :=
  match t with
  | T0 _ => []
  | TN lead w _ => lead ++ [w]
  end.

Definition wf_tensor {A : Type} (t : tensor A) : bool :=
  match t with
  | T0 _ => true
  | TN lead w rows =>
      Nat.eqb (length rows) (numel lead)
      && forallb (fun r => Nat.eqb (length r) w) rows
  end.

(** [t[..., :n]]: slicing clamps to the axis, a 0-dim tensor cannot be
    sliced. *)
Definition slice_to {A : Type} (n : nat) (t : tensor A) : result (tensor A) :=
  match t with
  | T0 _ => Err IndexError
  | TN lead w rows => Ok (TN lead (Nat.min n w) (map (firstn n) rows))
  end.

(** [t[..., n:]]. *)
Definition slice_from {A : Type} (n : nat) (t : tensor A) : result (tensor A) :=
  match t with
  | T0 _ => Err IndexError
  | TN lead w rows => Ok (TN lead (w - n) (map (skipn n) rows))
  end.

(** [t[..., a:b]] on a tensor with a trailing axis; used to name the slice a
    factor receives by its absolute position. *)
Definition window {A : Type} (a b : nat) (t : tensor A) : tensor A :=
  match t with
  | T0 x => T0 x
  | TN lead w rows =>
      TN lead (Nat.min b w - a) (map (fun r => skipn a (firstn b r)) rows)
  end.

Fixpoint zip_with {A B C : Type} (f : A -> B -> C) (xs : list A) (ys : list B)
  : list C :=
  match xs, ys with
  | x :: xs', y :: ys' => f x y :: zip_with f xs' ys'
  | _, _ => []
  end.

(** [torch.cat([a, b], dim=-1)] for two tensors that take part in the
    concatenation: all sizes but the last must agree. *)
Definition cat2 {A : Type} (a b : tensor A) : result (tensor A) :=
  match a, b with
  | TN la wa ra, TN lb wb rb =>
      if Size_eqb la lb
      then Ok (TN la (wa + wb) (zip_with (@app A) ra rb))
      else Err RuntimeError
  | _, _ => Err RuntimeError
  end.

(** A 1-D tensor of size (0,) is skipped by [torch.cat]. *)
Definition legacy_empty {A : Type} (t : tensor A) : bool :=
  match t with
  | TN [] 0 _ => true
  | _ => false
  end.

Definition cat_from {A : Type} (t : tensor A) (rest : list (tensor A))
  : result (tensor A) :=
  fold_left (fun acc u => a <- acc ;; cat2 a u) rest
            (match t with T0 _ => Err RuntimeError | TN _ _ _ => Ok t end).

(** [torch.cat(ts, dim=-1)]. *)
Definition cat {A : Type} (ts : list (tensor A)) : result (tensor A) :=
  match ts with
  | [] => Err RuntimeError
  | _ :: _ =>
      match filter (fun t => negb (legacy_empty t)) ts with
      | [] => Ok (TN [] 0 [[]])
      | t :: rest => cat_from t rest
      end
  end.

Definition elements {A : Type} (t : tensor A) : list A :=
  match t with
  | T0 x => [x]
  | TN _ _ rows => concat rows
  end.

Definition rows_of {A : Type} (t : tensor A) : list (list A) :=
  match t with
  | T0 _ => []
  | TN _ _ rows => rows
  end.

Definition trailing {A : Type} (t : tensor A) : nat :=
  match t with
  | T0 _ => 0
  | TN _ w _ => w
  end.

(** A well-formed tensor with leading shape [L]. *)
Definition has_lead {A : Type} (L : Size) (t : tensor A) : Prop :=
  wf_tensor t = true /\ exists w rows, t = TN L w rows.

(** The rows of a concatenation along the trailing axis, position by
    position: row [j] of the result is row [j] of each tensor in turn. *)
Definition join_rows {A : Type} (R : nat) (ts : list (tensor A))
  : list (list A) :=
  map (fun j => concat (map (fun t => nth j (rows_of t) []) ts)) (seq 0 R).

(** [bool(t)]: only a tensor with exactly one element has a truth value. *)
Definition tensor_bool (t : tensor bool) : result bool :=
  match elements t with
  | [b] => Ok b
  | _ => Err RuntimeError
  end.

(** ** Generators

    A generator is consumed item by item; an exception raised inside it
    surfaces when the consumer asks for the item that raises. *)

Inductive gen (T : Type) : Type :=
| Stop
| Yield (x : T) (rest : gen T)
| Raise (e : exn).

Arguments Stop {T}.
Arguments Yield {T} x rest.
Arguments Raise {T} e.

Fixpoint iter {T : Type} (l : list T) : gen T :=
  match l with
  | [] => Stop
  | x :: l' => Yield x (iter l')
  end.

(** [zip(xs, g)] for a sequence and a generator: the sequence is asked
    first, so an exhausted sequence stops the zip without touching [g]. *)
Fixpoint zip {S T : Type} (xs : list S) (g : gen T) : gen (S * T) :=
  match xs with
  | [] => Stop
  | x :: xs' =>
      match g with
      | Stop => Stop
      | Raise e => Raise e
      | Yield y g' => Yield (x, y) (zip xs' g')
      end
  end.

(** lines 10-13 *)
Fixpoint _iterate_parts {A : Type} (value : tensor A) (ndims : list nat)
  : gen (tensor A) :=
  match ndims with
  | [] => Stop
  | ndim :: ndims' =>
      match slice_to ndim value with
      | Err e => Raise e
      | Ok part =>
          Yield part
            (match slice_from ndim value with
             | Err e => Raise e
             | Ok value' => _iterate_parts value' ndims'
             end)
      end
  end.

(** [all(c(x) for x in g)]: each item is tested with [bool()], the first
    false item ends the scan. *)
Fixpoint py_all {T : Type} (c : T -> result (tensor bool)) (g : gen T)
  : result bool :=
  match g with
  | Stop => Ok true
  | Raise e => Err e
  | Yield x g' =>
      t <- c x ;;
      b <- tensor_bool t ;;
      if b then py_all c g' else Ok false
  end.

(** ** The numeric environment *)

Class TorchEnv : Type := {
  scalar : Type;
  pyval : Type;
  py_zero : pyval;
  py_add : pyval -> pyval -> result pyval;
  rng : Type;
  class_validate_args : bool
}.

(** [sum(f(x) for x in g)]: the accumulator starts at the integer 0 and
    each item is added on the right. *)
Fixpoint sum_from `{TorchEnv} {T : Type} (f : T -> result pyval) (g : gen T)
  (acc : pyval) : result pyval :=
  match g with
  | Stop => Ok acc
  | Raise e => Err e
  | Yield x g' =>
      v <- f x ;;
      acc' <- py_add acc v ;;
      sum_from f g' acc'
  end.

Definition py_sum `{TorchEnv} {T : Type} (f : T -> result pyval) (g : gen T)
  : result pyval :=
  sum_from f g py_zero.

(** [sum(n for ...)] over Python integers. *)
Fixpoint sum_int {T : Type} (f : T -> result nat) (l : list T) (acc : nat)
  : result nat :=
  match l with
  | [] => Ok acc
  | x :: l' => n <- f x ;; sum_int f l' (acc + n)
  end.

(** ** Component distributions

    What the module asks of a constraint and of a factor.  A property that
    may raise (such as [support]) is a [result]; sampling threads the state
    of the random generator. *)

Module Constraint.
Section Interface.
Context `{TorchEnv}.

Record t : Type := {
  check : tensor scalar -> result (tensor bool)
}.

End Interface.
End Constraint.

Module Distribution.
Section Interface.
Context `{TorchEnv}.

Record t : Type := {
  batch_shape : Size;
  event_shape : Size;
  has_rsample : bool;
  support : result Constraint.t;
  rsample : Size -> rng -> result (tensor scalar * rng);
  log_prob : tensor scalar -> result pyval
}.

End Interface.
End Distribution.

(** [torch.distributions.kl_divergence]: the dispatcher over registered
    pairs of distribution types. *)
Class KLRegistry `{TorchEnv} : Type := {
  kl_divergence : Distribution.t -> Distribution.t -> result pyval
}.

(** ** _FactorisedSupport (lines 16-23) *)

Module _FactorisedSupport.
Section Methods.
Context `{TorchEnv}.

Record t : Type := {
  supports : list Constraint.t;
  ndims : list nat
}.

Definition check (self : t) (value : tensor scalar) : result bool :=
  py_all (fun sp => Constraint.check (fst sp) (snd sp))
         (zip (supports self) (_iterate_parts value (ndims self))).

End Methods.
End _FactorisedSupport.

(** ** Factorised (lines 26-68) *)

Module Factorised.
Section Methods.
Context `{TorchEnv}.

Record t : Type := {
  factors : list Distribution.t;
  _ndims : list nat;
  batch_shape : Size;
  event_shape : Size;
  _validate_args : bool
}.

(** The width cached for one factor (line 33). *)
Definition ndim_of (factor : Distribution.t) : result nat :=
  if 0 <? length (Distribution.event_shape factor)
  then getitem (Distribution.event_shape factor) 0
  else Ok 1.

(** lines 29-35.  [Distribution.__init__] stores the two shapes and, for
    [validate_args=None], keeps the class default; with the empty
    [arg_constraints] it validates nothing. *)
Definition __init__ (factors : list Distribution.t)
  (validate_args : option bool) : result t :=
  first <- getitem factors 0 ;;
  let bs := Distribution.batch_shape first in
  total <- sum_int (fun factor => getitem (Distribution.event_shape factor) 0)
                   factors 0 ;;
  let es := [total] in
  nd <- comprehension ndim_of factors ;;
  Ok {| factors := factors;
        _ndims := nd;
        batch_shape := bs;
        event_shape := es;
        _validate_args := match validate_args with
                          | Some b => b
                          | None => class_validate_args
                          end |}.

(** lines 37-39 *)
Definition has_rsample (self : t) : bool :=
  existsb Distribution.has_rsample (factors self).

(** lines 41-43 *)
Definition support (self : t) : result _FactorisedSupport.t :=
  sups <- comprehension Distribution.support (factors self) ;;
  Ok {| _FactorisedSupport.supports := sups;
        _FactorisedSupport.ndims := _ndims self |}.

(** [[factor.rsample(sample_shape) for factor in self.factors]]: the draws
    happen in factor order on the shared generator state. *)
Fixpoint draw (fs : list Distribution.t) (sample_shape : Size) (g : rng)
  : result (list (tensor scalar) * rng) :=
  match fs with
  | [] => Ok ([], g)
  | factor :: fs' =>
      r <- Distribution.rsample factor sample_shape g ;;
      rs <- draw fs' sample_shape (snd r) ;;
      Ok (fst r :: fst rs, snd rs)
  end.

(** lines 45-46 *)
Definition rsample (self : t) (sample_shape : Size) (g : rng)
  : result (tensor scalar * rng) :=
  rs <- draw (factors self) sample_shape g ;;
  x <- cat (fst rs) ;;
  Ok (x, snd rs).

(** lines 48-50: the fields of the object the call constructs. *)
Definition marginal (self : t) (factor_indices : list Z) : result t :=
  picked <- comprehension (getitem (factors self)) factor_indices ;;
  __init__ picked (Some (_validate_args self)).

(** lines 59-60 *)
Definition partition_dimensions (self : t) (data : tensor scalar)
  : gen (tensor scalar) :=
  _iterate_parts data (_ndims self).

(** lines 52-54 *)
Definition log_prob (self : t) (value : tensor scalar) : result pyval :=
  py_sum (fun fp => Distribution.log_prob (fst fp) (snd fp))
         (zip (factors self) (partition_dimensions self value)).

End Methods.
End Factorised.

(** lines 71-74 *)
Definition _kl_factorised_factorised `{KLRegistry}
  (p q : Factorised.t) : result pyval :=
  py_sum (fun pq => kl_divergence (fst pq) (snd pq))
         (iter (combine (Factorised.factors p) (Factorised.factors q))).

(** ** Objects

    Instances live in a store and are named by their position in it.
    Calling the class allocates; no method of [Factorised] assigns to an
    attribute of an existing instance, so the only store change in the
    module is the allocation made by [marginal]. *)

Module Store.
Section Objects.
Context `{TorchEnv}.

Definition ref := nat.
Definition t := list Factorised.t.

Definition deref (h : t) (r : ref) : option Factorised.t := nth_error h r.

Definition alloc (h : t) (o : Factorised.t) : ref * t :=
  (length h, h ++ [o]).

(** [self.marginal(factor_indices)] on the instance at [self]: the object
    the constructor call returns is allocated; when the call raises there
    is no new object. *)
Definition marginal (h : t) (self : ref) (factor_indices : list Z)
  : option (result (ref * t)) :=
  match deref h self with
  | None => None
  | Some d =>
      Some (o <- Factorised.marginal d factor_indices ;; Ok (alloc h o))
  end.

End Objects.
End Store.

(** ** Vocabulary of the statements *)

Section Vocabulary.
Context `{TorchEnv}.

(** The event width of a factor: the declared size of its event shape, or 1
    for a scalar-valued factor. *)
Definition event_width (factor : Distribution.t) : nat :=
  match Distribution.event_shape factor with
  | [] => 1
  | n :: _ => n
  end.

(** Where the slice of factor [i] starts on the trailing axis. *)
Definition offset (ndims : list nat) (i : nat) : nat :=
  list_sum (firstn i ndims).

(** All the slices of [value] for the widths [ndims], in order. *)
Definition windows {A : Type} (ndims : list nat) (value : tensor A)
  : list (tensor A) :=
  map (fun i => window (offset ndims i) (offset ndims i + nth i ndims 0) value)
      (seq 0 (length ndims)).

(** The slice of [value] that belongs to factor [i]. *)
Definition slice_of (ndims : list nat) (i : nat) (value : tensor scalar)
  : tensor scalar :=
  window (offset ndims i) (offset ndims i + nth i ndims 0) value.

(** [self.factors[i].log_prob(slice i of value)] *)
Definition factor_log_prob (self : Factorised.t) (value : tensor scalar)
  (i : nat) : result pyval :=
  factor <- getitem (Factorised.factors self) (Z.of_nat i) ;;
  Distribution.log_prob factor (slice_of (Factorised._ndims self) i value).

(** [bool(self.factors[i].support.check(slice i of value))] *)
Definition factor_check (self : Factorised.t) (value : tensor scalar)
  (i : nat) : result bool :=
  factor <- getitem (Factorised.factors self) (Z.of_nat i) ;;
  c <- Distribution.support factor ;;
  b <- Constraint.check c (slice_of (Factorised._ndims self) i value) ;;
  tensor_bool b.

(** [self.support.check(value)] *)
Definition support_check (self : Factorised.t) (value : tensor scalar)
  : result bool :=
  s <- Factorised.support self ;;
  _FactorisedSupport.check s value.

(** [kl_divergence(p.factors[i], q.factors[i])] *)
Definition kl_at `{!KLRegistry} (p q : Factorised.t) (i : nat) : result pyval :=
  a <- getitem (Factorised.factors p) (Z.of_nat i) ;;
  b <- getitem (Factorised.factors q) (Z.of_nat i) ;;
  kl_divergence a b.

(** The sum of per-index terms, accumulated like the builtin [sum]. *)
Definition sum_over (n : nat) (term : nat -> result pyval) : result pyval :=
  py_sum term (iter (seq 0 n)).

(** The index a Python subscript [i] denotes in a sequence of length [n]. *)
Definition norm_index (n : nat) (i : Z) : nat :=
  Z.to_nat (if (i <? 0)%Z then (i + Z.of_nat n)%Z else i).

Definition in_range (n : nat) (i : Z) : Prop :=
  (- Z.of_nat n <= i < Z.of_nat n)%Z.

(** The sampling contract of a component distribution: from any generator
    state, [rsample(sample_shape)] returns a well-formed tensor of shape
    [sample_shape + batch_shape + event_shape]. *)
Definition samples_as_declared (sample_shape : Size) (factor : Distribution.t)
  : Prop :=
  forall g, exists x g',
    Distribution.rsample factor sample_shape g = Ok (x, g')
    /\ wf_tensor x = true
    /\ shape x = sample_shape ++ Distribution.batch_shape factor
                              ++ Distribution.event_shape factor.

End Vocabulary.

(** ** A concrete environment

    Integer scalars, exact addition, a counter as generator state, and a
    registry that knows the divergence between factors of equal event
    shape.  The two factors follow the module's own demonstration: event
    widths 3 and 4 on a batch of 5. *)

Module Demo.

Definition env : TorchEnv :=
  {| scalar := Z;
     pyval := Z;
     py_zero := 0%Z;
     py_add := fun x y => Ok (x + y)%Z;
     rng := nat;
     class_validate_args := true |}.

Definition total (t : tensor Z) : Z := fold_right Z.add 0%Z (elements t).

Definition nonneg : @Constraint.t env :=
  @Constraint.Build_t env
    (fun t => Ok (T0 (forallb (fun x => (0 <=? x)%Z) (elements t)))).

(** A factor with a one-dimensional event of the given width.  Its
    log-density rejects a value whose trailing size is not its own. *)
Definition vector_factor (batch : Size) (w : nat) : @Distribution.t env :=
  @Distribution.Build_t env
    batch [w] true (Ok nonneg)
    (fun sample_shape g =>
       Ok (TN (sample_shape ++ batch) w
              (repeat (repeat (Z.of_nat g) w) (numel (sample_shape ++ batch))),
           S g))
    (fun t =>
       match t with
       | TN _ w' _ => if Nat.eqb w' w then Ok (total t) else Err ValueError
       | T0 _ => Err ValueError
       end).

(** A scalar-valued factor: empty event shape, samples of shape
    [sample_shape + batch]. *)
Definition scalar_factor (batch : Size) : @Distribution.t env :=
  @Distribution.Build_t env
    batch [] true (Ok nonneg)
    (fun sample_shape g =>
       Ok (match sample_shape ++ batch with
           | [] => T0 (Z.of_nat g)
           | s => TN (removelast s) (last s 0)
                     (repeat (repeat (Z.of_nat g) (last s 0))
                             (numel (removelast s)))
           end, S g))
    (fun t => Ok (total t)).

(** A factor with a two-dimensional event of shape (2, 3). *)
Definition matrix_factor (batch : Size) : @Distribution.t env :=
  @Distribution.Build_t env
    batch [2; 3] true (Ok nonneg)
    (fun sample_shape g =>
       Ok (TN (sample_shape ++ batch ++ [2]) 3
              (repeat (repeat (Z.of_nat g) 3)
                      (numel (sample_shape ++ batch ++ [2]))),
           S g))
    (fun t => Ok (total t)).

Definition dist1 : @Distribution.t env := vector_factor [5] 3.
Definition dist2 : @Distribution.t env := vector_factor [5] 4.

Definition registry : @KLRegistry env :=
  @Build_KLRegistry env
    (fun p q =>
       if Size_eqb (Distribution.event_shape p) (Distribution.event_shape q)
       then Ok 0%Z else Err NotImplementedError).

Definition fact : @Factorised.t env :=
  @Factorised.Build_t env [dist1; dist2] [3; 4] [5] [7] true.

Definition only_first : @Factorised.t env :=
  @Factorised.Build_t env [dist1] [3] [5] [3] true.

Definition matrices : @Factorised.t env :=
  @Factorised.Build_t env [matrix_factor [5]] [2] [5] [2] true.

(** The same two families in the other order. *)
Definition swapped : @Factorised.t env :=
  @Factorised.Build_t env [dist2; dist1] [4; 3] [5] [7] true.

(** One batch row of width 7, and the same row with a surplus element. *)
Definition value7 : tensor Z := TN [1] 7 [[1; 2; 3; 4; 5; 6; 7]%Z].
Definition value8 : tensor Z := TN [1] 8 [[1; 2; 3; 4; 5; 6; 7; 8]%Z].

(** A row that is too short: the second factor is left with two elements. *)
Definition value5 : tensor Z := TN [1] 5 [[1; 2; 3; 4; 5]%Z].

End Demo.

(** ** Entropy, mean and variance (lines 56-57 and 62-68)

    The three remaining capabilities the module asks of a factor:
    [factor.entropy()], [factor.mean] and [factor.variance]. *)

Module Moments.

Class t `{TorchEnv} : Type := {
  entropy : Distribution.t -> result pyval;
  mean : Distribution.t -> result (tensor scalar);
  variance : Distribution.t -> result pyval
}.

End Moments.

Module FactorisedStats.
Section Methods.
Context `{Moments.t}.

(** lines 56-57 *)
Definition entropy (self : Factorised.t) : result pyval :=
  py_sum Moments.entropy (iter (Factorised.factors self)).

(** lines 62-64 *)
Definition mean (self : Factorised.t) : result (tensor scalar) :=
  ms <- comprehension Moments.mean (Factorised.factors self) ;;
  cat ms.

(** lines 66-68 *)
Definition variance (self : Factorised.t) : result pyval :=
  py_sum Moments.variance (iter (Factorised.factors self)).

End Methods.
End FactorisedStats.

(** ** More of the vocabulary *)

Section MoreVocabulary.
Context `{TorchEnv}.

(** [bool(f.support.check(x))] for one factor and a value of its own. *)
Definition own_check (f : Distribution.t) (x : tensor scalar) : result bool :=
  c <- Distribution.support f ;;
  b <- Constraint.check c x ;;
  tensor_bool b.

(** The declared mean of a factor: a well-formed tensor of shape
    [batch_shape + event_shape]. *)
Definition mean_as_declared `{!Moments.t} (factor : Distribution.t) : Prop :=
  exists m, Moments.mean factor = Ok m
            /\ wf_tensor m = true
            /\ shape m = Distribution.batch_shape factor
                         ++ Distribution.event_shape factor.

End MoreVocabulary.

(** ** Further demonstration objects *)

Module DemoStats.

(** Moments of the demonstration factors: zero mean of the declared shape,
    an entropy equal to the event width, a unit variance. *)
Definition moments : @Moments.t Demo.env :=
  @Moments.Build_t Demo.env
    (fun f => Ok (Z.of_nat (@event_width Demo.env f)))
    (fun f =>
       match Distribution.event_shape f with
       | [w] => Ok (TN (Distribution.batch_shape f) w
                       (repeat (repeat 0%Z w)
                               (numel (Distribution.batch_shape f))))
       | _ => Err NotImplementedError
       end)
    (fun f => Ok 1%Z).

(** A factor whose [support] property is not implemented. *)
Definition unsupported (batch : Size) (w : nat) : @Distribution.t Demo.env :=
  @Distribution.Build_t Demo.env
    batch [w] true (Err NotImplementedError)
    (Distribution.rsample (Demo.vector_factor batch w))
    (Distribution.log_prob (Demo.vector_factor batch w)).

(** Widths 3 and 4 again, on batches of 5 and of 2. *)
Definition mixed_batches : @Factorised.t Demo.env :=
  @Factorised.Build_t Demo.env
    [Demo.vector_factor [5] 3; Demo.vector_factor [2] 4] [3; 4] [5] [7] true.

(** The first factor supported, the second not. *)
Definition half_supported : @Factorised.t Demo.env :=
  @Factorised.Build_t Demo.env
    [Demo.dist1; unsupported [5] 4] [3; 4] [5] [7] true.

(** Two marginals of the demonstration distribution. *)
Definition only_second : @Factorised.t Demo.env :=
  @Factorised.Build_t Demo.env [Demo.dist2] [4] [5] [4] true.

Definition second_first_second : @Factorised.t Demo.env :=
  @Factorised.Build_t Demo.env
    [Demo.dist2; Demo.dist1; Demo.dist2] [4; 3; 4] [5] [11] true.

(** A row whose first element is outside the support of the first factor. *)
Definition negative7 : tensor Z := TN [1] 7 [[-1; 2; 3; 4; 5; 6; 7]%Z].

(** Two pieces of widths 3 and 4 on two rows. *)
Definition piece3 : tensor Z := TN [2] 3 [[1; 2; 3]; [8; 9; 10]]%Z.
Definition piece4 : tensor Z := TN [2] 4 [[4; 5; 6; 7]; [11; 12; 13; 14]]%Z.

End DemoStats.

(** ** Broadcasting

    [torch] adds two tensors after aligning their shapes at the trailing
    end: two sizes are compatible when they are equal or one of them is 1. *)

Fixpoint broadcast_rev (a b : list nat) : option (list nat) :=
  match a, b with
  | [], _ => Some b
  | _, [] => Some a
  | x :: a', y :: b' =>
      if Nat.eqb x y || Nat.eqb y 1
      then option_map (cons x) (broadcast_rev a' b')
      else if Nat.eqb x 1
           then option_map (cons y) (broadcast_rev a' b')
           else None
  end.

Definition broadcast (a b : Size) : option Size :=
  option_map (@rev nat) (broadcast_rev (rev a) (rev b)).

Section ShapedValues.
Context `{TorchEnv}.
Variable shape_of : pyval -> Size.

(** The addition of the environment is the addition of tensors: the
    integer 0 is a scalar, compatible shapes give a value of the broadcast
    shape, incompatible ones raise RuntimeError. *)
Definition adds_by_broadcasting : Prop :=
  shape_of py_zero = []
  /\ forall x y,
       match broadcast (shape_of x) (shape_of y) with
       | Some s => exists z, py_add x y = Ok z /\ shape_of z = s
       | None => py_add x y = Err RuntimeError
       end.

(** The declared variance of a factor: a value of shape
    [batch_shape + event_shape]. *)
Definition variance_as_declared `{!Moments.t} (factor : Distribution.t)
  : Prop :=
  exists v, Moments.variance factor = Ok v
            /\ shape_of v = Distribution.batch_shape factor
                            ++ Distribution.event_shape factor.

End ShapedValues.

(** An environment that keeps of every value its shape only. *)

Module ShapeDemo.

Definition env : TorchEnv :=
  {| scalar := Z;
     pyval := Size;
     py_zero := [];
     py_add := fun a b =>
       match broadcast a b with
       | Some s => Ok s
       | None => Err RuntimeError
       end;
     rng := nat;
     class_validate_args := true |}.

Definition vector_factor (batch : Size) (w : nat) : @Distribution.t env :=
  @Distribution.Build_t env
    batch [w] false (Err NotImplementedError)
    (fun _ _ => Err NotImplementedError)
    (fun _ => Ok batch).

Definition moments : @Moments.t env :=
  @Moments.Build_t env
    (fun f => Ok (Distribution.batch_shape f))
    (fun _ => Err NotImplementedError)
    (fun f => Ok (Distribution.batch_shape f ++ Distribution.event_shape f)).

Definition fact : @Factorised.t env :=
  @Factorised.Build_t env
    [vector_factor [5] 3; vector_factor [5] 4] [3; 4] [5] [7] true.

(** Five rows of width 7. *)
Definition value : tensor Z := TN [5] 7 (repeat [1; 2; 3; 4; 5; 6; 7]%Z 5).

End ShapeDemo.

(** ** The sum and the verdicts, written out *)

Section Written.
Context `{TorchEnv}.

(** What [sum] of the terms [t0, t1, ...] is: [((0 + t0) + t1) + ...], the
    terms evaluated and added from left to right, the first exception
    ending the evaluation. *)
Definition sum_spec (terms : list (result pyval)) : result pyval :=
  fold_left (fun acc t => a <- acc ;; v <- t ;; py_add a v) terms
            (Ok py_zero).


(** [f.support.check(x)] for one factor and a value of its own. *)
Definition own_verdict (f : Distribution.t) (x : tensor scalar)
  : result (tensor bool) :=
  c <- Distribution.support f ;;
  Constraint.check c x.

End Written.

(** ** Factors with per-row verdicts

    The constraints of [torch] answer with one verdict per event: a boolean
    tensor of the shape of the value without its trailing axis. *)

Module Batched.

Fixpoint chunk {A : Type} (k n : nat) (l : list A) : list (list A) :=
  match n with
  | 0 => []
  | S n' => firstn k l :: chunk k n' (skipn k l)
  end.

(** A boolean tensor of shape [lead] from one verdict per row. *)
Definition verdicts (lead : Size) (bs : list bool) : tensor bool :=
  match lead with
  | [] => T0 (hd true bs)
  | _ :: _ => TN (removelast lead) (last lead 0)
                 (chunk (last lead 0) (numel (removelast lead)) bs)
  end.

Definition rowwise_nonneg : @Constraint.t Demo.env :=
  @Constraint.Build_t Demo.env
    (fun t =>
       match t with
       | T0 x => Ok (T0 (0 <=? x)%Z)
       | TN lead _ rows =>
           Ok (verdicts lead (map (forallb (fun x => (0 <=? x)%Z)) rows))
       end).

Definition rowwise_factor (batch : Size) (w : nat) : @Distribution.t Demo.env :=
  @Distribution.Build_t Demo.env
    batch [w] true (Ok rowwise_nonneg)
    (Distribution.rsample (Demo.vector_factor batch w))
    (Distribution.log_prob (Demo.vector_factor batch w)).

(** Widths 3 and 4 on a batch of 2. *)
Definition fact : @Factorised.t Demo.env :=
  @Factorised.Build_t Demo.env
    [rowwise_factor [2] 3; rowwise_factor [2] 4] [3; 4] [2] [7] true.

(** Two rows of width 7, every element in the support. *)
Definition value : tensor Z :=
  TN [2] 7 [[1; 2; 3; 4; 5; 6; 7]; [8; 9; 10; 11; 12; 13; 14]]%Z.

(** A registry whose divergence tells both arguments and their order: ten
    times the event width of the first plus the event width of the second. *)
Definition registry : @KLRegistry Demo.env :=
  @Build_KLRegistry Demo.env
    (fun p q => Ok (Z.of_nat (10 * @event_width Demo.env p
                              + @event_width Demo.env q))).

End Batched.

(** * Properties *)

(** ** Results, indexing and comprehensions *)

Lemma bind_Ok {T U : Type} (c : result T) (k : T -> result U) (y : U) :
  (x <- c ;; k x) = Ok y <-> exists x, c = Ok x /\ k x = Ok y.
Proof.
  destruct c as [x|e]; simpl; split.
  - intros Hk. exists x. auto.
  - intros [x' [Hx Hk]]. injection Hx as ->. exact Hk.
  - discriminate.
  - intros [x' [Hx _]]. discriminate.
Qed.

Lemma getitem_nat {T : Type} (l : list T) (i : nat) :
  getitem l (Z.of_nat i) =
  match nth_error l i with Some x => Ok x | None => Err IndexError end.
Proof.
  unfold getitem.
  destruct (Z.ltb_spec (Z.of_nat i) 0) as [Hneg|_]; [lia|].
  destruct (Z.ltb_spec (Z.of_nat i) 0) as [Hneg|_]; [lia|].
  now rewrite Nat2Z.id.
Qed.

Lemma getitem_norm {T : Type} (l : list T) (i : Z) :
  in_range (length l) i ->
  exists x, nth_error l (norm_index (length l) i) = Some x
            /\ getitem l i = Ok x.
Proof.
  unfold in_range, norm_index, getitem. intros Hr.
  set (j := if (i <? 0)%Z then (i + Z.of_nat (length l))%Z else i).
  assert (Hj : (0 <= j < Z.of_nat (length l))%Z).
  { subst j. destruct (Z.ltb_spec i 0); lia. }
  destruct (Z.ltb_spec j 0) as [Hneg|_]; [lia|].
  destruct (nth_error l (Z.to_nat j)) as [x|] eqn:Hn.
  - exists x. auto.
  - apply nth_error_None in Hn. lia.
Qed.

Lemma comprehension_Ok_iff {S T : Type} (f : S -> result T) (xs : list S)
  (ys : list T) :
  comprehension f xs = Ok ys <-> Forall2 (fun x y => f x = Ok y) xs ys.
Proof.
  revert ys. induction xs as [|x xs IH]; intros ys; simpl.
  - split.
    + intros Hy. injection Hy as <-. constructor.
    + intros Hf. inversion Hf. reflexivity.
  - rewrite bind_Ok. split.
    + intros [y [Hy Hrest]]. apply bind_Ok in Hrest.
      destruct Hrest as [ys' [Hys Hret]]. injection Hret as <-.
      constructor; [exact Hy | now apply IH].
    + intros Hf. inversion Hf as [|? y ? ys' Hy Hys]; subst.
      exists y. split; [exact Hy|].
      apply IH in Hys. rewrite Hys. reflexivity.
Qed.

Lemma comprehension_total {S T : Type} (f : S -> result T) (g : S -> T)
  (xs : list S) :
  (forall x, In x xs -> f x = Ok (g x)) ->
  comprehension f xs = Ok (map g xs).
Proof.
  induction xs as [|x xs IH]; intros Hf; simpl; [reflexivity|].
  rewrite Hf by (now left). simpl.
  rewrite IH by (intros; apply Hf; now right). reflexivity.
Qed.

Lemma Forall2_seq_from {T : Type} (P : T -> nat -> Prop) (l : list T)
  (s : nat) :
  (forall i x, nth_error l i = Some x -> P x (s + i)) ->
  Forall2 P l (seq s (length l)).
Proof.
  revert s. induction l as [|x l IH]; intros s Hp; simpl; constructor.
  - specialize (Hp 0 x eq_refl). now rewrite Nat.add_0_r in Hp.
  - apply IH. intros i y Hy. specialize (Hp (S i) y Hy).
    now rewrite Nat.add_succ_r in Hp.
Qed.

(** ** The constructor *)

Section Construction.
Context `{TorchEnv}.

Lemma ndim_of_event_width (factor : Distribution.t) :
  Factorised.ndim_of factor = Ok (event_width factor).
Proof.
  unfold Factorised.ndim_of, event_width.
  destruct (Distribution.event_shape factor) as [|n es]; reflexivity.
Qed.

Lemma sum_int_event_shape (fs : list Distribution.t) (acc : nat) :
  sum_int (fun factor => getitem (Distribution.event_shape factor) 0) fs acc =
  if forallb (fun factor => 0 <? length (Distribution.event_shape factor)) fs
  then Ok (acc + list_sum (map event_width fs))
  else Err IndexError.
Proof.
  revert acc. induction fs as [|f fs IH]; intros acc; simpl.
  - now rewrite Nat.add_0_r.
  - unfold event_width at 1.
    destruct (Distribution.event_shape f) as [|n es]; simpl; [reflexivity|].
    rewrite IH. destruct (forallb _ fs); [|reflexivity].
    f_equal. lia.
Qed.

(** What [__init__] computes, case by case. *)
Lemma init_cases (fs : list Distribution.t) (validate_args : option bool) :
  Factorised.__init__ fs validate_args =
  match fs with
  | [] => Err IndexError
  | first :: _ =>
      if forallb (fun factor => 0 <? length (Distribution.event_shape factor))
                 fs
      then Ok (Factorised.Build_t fs (map event_width fs)
                 (Distribution.batch_shape first)
                 [list_sum (map event_width fs)]
                 (match validate_args with
                  | Some b => b
                  | None => class_validate_args
                  end))
      else Err IndexError
  end.
Proof.
  unfold Factorised.__init__.
  destruct fs as [|first rest]; [reflexivity|].
  change (getitem (first :: rest) 0) with (Ok first). cbn [bind].
  rewrite sum_int_event_shape.
  destruct (forallb _ (first :: rest)); [|reflexivity].
  cbn [bind].
  rewrite (comprehension_total Factorised.ndim_of event_width)
    by (intros; apply ndim_of_event_width).
  reflexivity.
Qed.

Lemma init_Ok (fs : list Distribution.t) (validate_args : option bool)
  (d : Factorised.t) :
  Factorised.__init__ fs validate_args = Ok d ->
  fs <> []
  /\ Forall (fun factor => Distribution.event_shape factor <> []) fs
  /\ Factorised.factors d = fs
  /\ Factorised._ndims d = map event_width fs
  /\ Factorised.batch_shape d = match fs with
                                | [] => []
                                | first :: _ => Distribution.batch_shape first
                                end
  /\ Factorised.event_shape d = [list_sum (map event_width fs)].
Proof.
  rewrite init_cases. destruct fs as [|first rest]; [discriminate|].
  destruct (forallb _ (first :: rest)) eqn:Hall; [|discriminate].
  intros Hd. injection Hd as <-. cbn [Factorised.factors Factorised._ndims
    Factorised.batch_shape Factorised.event_shape].
  repeat split; try discriminate.
  rewrite forallb_forall in Hall. apply Forall_forall.
  intros f Hin Hnil. specialize (Hall f Hin). rewrite Hnil in Hall.
  discriminate.
Qed.

Lemma init_succeeds (fs : list Distribution.t) (validate_args : option bool) :
  fs <> [] ->
  Forall (fun factor => Distribution.event_shape factor <> []) fs ->
  exists d, Factorised.__init__ fs validate_args = Ok d.
Proof.
  intros Hne Hall. rewrite init_cases.
  destruct fs as [|first rest]; [congruence|].
  assert (Hb : forallb
                 (fun factor => 0 <? length (Distribution.event_shape factor))
                 (first :: rest) = true).
  { apply forallb_forall. intros f Hin.
    rewrite Forall_forall in Hall. specialize (Hall f Hin).
    destruct (Distribution.event_shape f); [congruence|reflexivity]. }
  rewrite Hb. eauto.
Qed.

Lemma init_ndims_length (fs : list Distribution.t) (va : option bool)
  (d : Factorised.t) :
  Factorised.__init__ fs va = Ok d ->
  length (Factorised._ndims d) = length (Factorised.factors d).
Proof.
  intros Hd. apply init_Ok in Hd.
  destruct Hd as (_ & _ & Hf & Hn & _). rewrite Hf, Hn. apply length_map.
Qed.

End Construction.

(** ** Slicing and the parts generator *)

Lemma Size_eqb_refl (a : Size) : Size_eqb a a = true.
Proof.
  induction a as [|x a IH]; simpl; [reflexivity|].
  now rewrite Nat.eqb_refl, IH.
Qed.

Lemma zip_with_map {A B C D : Type} (f : B -> C -> D) (g : A -> B) (h : A -> C)
  (l : list A) :
  zip_with f (map g l) (map h l) = map (fun x => f (g x) (h x)) l.
Proof.
  induction l as [|x l IH]; simpl; [reflexivity|]. now rewrite IH.
Qed.

Lemma map_nth_seq {A : Type} (l : list A) (d : A) :
  map (fun j => nth j l d) (seq 0 (length l)) = l.
Proof.
  induction l as [|x l IH]; simpl; [reflexivity|].
  f_equal. rewrite <- seq_shift, map_map. exact IH.
Qed.

Lemma offset_cons (n : nat) (ns : list nat) (i : nat) :
  offset (n :: ns) (S i) = n + offset ns i.
Proof. reflexivity. Qed.

Lemma offset_step (ns : list nat) (i : nat) :
  i < length ns -> offset ns (S i) = offset ns i + nth i ns 0.
Proof.
  revert i. induction ns as [|n ns IH]; intros i Hi; simpl in Hi; [lia|].
  destruct i as [|i].
  - unfold offset. simpl. lia.
  - rewrite !offset_cons, IH by lia. simpl. lia.
Qed.

Lemma iterate_parts_suffix {A : Type} (lead : Size) (w : nat)
  (rows : list (list A)) (ns : list nat) (a : nat) :
  _iterate_parts (TN lead (w - a) (map (skipn a) rows)) ns =
  iter (map (fun i => window (a + offset ns i) (a + offset ns i + nth i ns 0)
                             (TN lead w rows))
            (seq 0 (length ns))).
Proof.
  revert a. induction ns as [|n ns IH]; intros a; [reflexivity|].
  cbn [_iterate_parts slice_to slice_from length seq map iter].
  f_equal.
  - unfold offset. cbn [firstn list_sum nth window].
    rewrite Nat.add_0_r. f_equal; [lia|].
    rewrite map_map. apply map_ext. intros r. apply firstn_skipn_comm.
  - replace (w - a - n) with (w - (a + n)) by lia.
    rewrite map_map.
    rewrite (map_ext (fun r => skipn n (skipn a r)) (skipn (a + n)))
      by (intros r; rewrite skipn_skipn; f_equal; lia).
    rewrite IH, <- seq_shift, map_map. f_equal. apply map_ext. intros i.
    rewrite offset_cons. cbn [nth]. f_equal; lia.
Qed.

(** On a value with a trailing axis the generator never raises: it yields
    one slice per width, each at its absolute position. *)
Lemma iterate_parts_windows {A : Type} (lead : Size) (w : nat)
  (rows : list (list A)) (ns : list nat) :
  _iterate_parts (TN lead w rows) ns =
  iter (map (fun i => window (offset ns i) (offset ns i + nth i ns 0)
                             (TN lead w rows))
            (seq 0 (length ns))).
Proof.
  pose proof (iterate_parts_suffix lead w rows ns 0) as Hs.
  rewrite Nat.sub_0_r in Hs.
  rewrite (map_ext (skipn 0) (fun r => r)), map_id in Hs by reflexivity.
  exact Hs.
Qed.

Lemma zip_iter {S T : Type} (xs : list S) (ys : list T) :
  zip xs (iter ys) = iter (combine xs ys).
Proof.
  revert ys. induction xs as [|x xs IH]; intros [|y ys]; simpl;
    try reflexivity.
  now rewrite IH.
Qed.

Lemma nth_error_combine {S T : Type} (xs : list S) (ys : list T) (i : nat)
  (x : S) (y : T) :
  nth_error (combine xs ys) i = Some (x, y) <->
  nth_error xs i = Some x /\ nth_error ys i = Some y.
Proof.
  revert ys i. induction xs as [|a xs IH]; intros [|b ys] [|i]; simpl;
    try (split; [discriminate | intros [? ?]; discriminate]).
  - split.
    + intros Hp. injection Hp as -> ->. auto.
    + intros [Ha Hb]. injection Ha as ->. injection Hb as ->. reflexivity.
  - apply IH.
Qed.

Lemma nth_error_map_seq {T : Type} (g : nat -> T) (n i : nat) (x : T) :
  nth_error (map g (seq 0 n)) i = Some x <-> i < n /\ x = g i.
Proof.
  rewrite nth_error_map, nth_error_seq.
  destruct (Nat.ltb_spec i n) as [Hlt|Hge]; simpl.
  - split.
    + intros Hx. injection Hx as <-. auto.
    + intros [_ ->]. reflexivity.
  - split; [discriminate | intros [Hlt _]; lia].
Qed.

Lemma Forall2_nth_error_l {S T : Type} (P : S -> T -> Prop) (xs : list S)
  (ys : list T) (i : nat) (x : S) :
  Forall2 P xs ys -> nth_error xs i = Some x ->
  exists y, nth_error ys i = Some y /\ P x y.
Proof.
  intros Hf. revert i. induction Hf as [|a b xs ys Hab Hf IH]; intros [|i];
    simpl; try discriminate.
  - intros Ha. injection Ha as <-. eauto.
  - apply IH.
Qed.

Lemma comprehension_all_ok {S T : Type} (f : S -> result T) (xs : list S) :
  (forall x, In x xs -> exists y, f x = Ok y) ->
  exists ys, comprehension f xs = Ok ys.
Proof.
  induction xs as [|x xs IH]; intros Hf; simpl; [eauto|].
  destruct (Hf x (or_introl eq_refl)) as [y Hy].
  destruct IH as [ys Hys]; [intros; apply Hf; now right|].
  rewrite Hy, Hys. simpl. eauto.
Qed.

(** ** Sums and conjunctions over generators *)

Section Accumulation.
Context `{TorchEnv}.

Lemma sum_from_Forall2 {S T : Type} (f : S -> result pyval)
  (g : T -> result pyval) (xs : list S) (ys : list T) (acc : pyval) :
  Forall2 (fun x y => f x = g y) xs ys ->
  sum_from f (iter xs) acc = sum_from g (iter ys) acc.
Proof.
  intros Hf. revert acc. induction Hf as [|x y xs ys Hxy Hf IH]; intros acc;
    simpl; [reflexivity|].
  rewrite Hxy. destruct (g y) as [v|e]; simpl; [|reflexivity].
  destruct (py_add acc v) as [acc'|e]; simpl; [apply IH | reflexivity].
Qed.

Lemma sum_from_indexed {T : Type} (f : T -> result pyval)
  (term : nat -> result pyval) (l : list T) :
  (forall i x, nth_error l i = Some x -> f x = term i) ->
  py_sum f (iter l) = sum_over (length l) term.
Proof.
  intros Hi. unfold sum_over, py_sum. apply sum_from_Forall2.
  apply Forall2_seq_from. exact Hi.
Qed.


Lemma py_all_true_iff {T : Type} (c : T -> result (tensor bool)) (l : list T) :
  py_all c (iter l) = Ok true <->
  (forall i x, nth_error l i = Some x ->
               (t <- c x ;; tensor_bool t) = Ok true).
Proof.
  induction l as [|y l IH]; simpl.
  - split; [intros _ [|i] x; discriminate | reflexivity].
  - split.
    + intros Hall [|i] x Hx; simpl in Hx.
      * injection Hx as <-.
        destruct (c y) as [t|e]; simpl in *; [|discriminate].
        destruct (tensor_bool t) as [[|]|e]; simpl in *;
          try discriminate; reflexivity.
      * destruct (c y) as [t|e]; simpl in Hall; [|discriminate].
        destruct (tensor_bool t) as [[|]|e]; simpl in Hall;
          try discriminate.
        apply (proj1 IH Hall i x Hx).
    + intros Hi. pose proof (Hi 0 y eq_refl) as H0.
      destruct (c y) as [t|e]; simpl in *; [|discriminate].
      rewrite H0. simpl. apply IH. intros i x Hx. apply (Hi (S i) x Hx).
Qed.

End Accumulation.

(** ** Concatenation along the trailing axis *)

Section Concatenation.
Variable A : Type.

Lemma has_lead_inv (L : Size) (t : tensor A) :
  has_lead L t ->
  exists w rows, t = TN L w rows /\ length rows = numel L
                 /\ forall r, In r rows -> length r = w.
Proof.
  intros [Hwf (w & rows & ->)]. exists w, rows. simpl in Hwf.
  apply andb_prop in Hwf. destruct Hwf as [Hlen Hrows].
  apply Nat.eqb_eq in Hlen. rewrite forallb_forall in Hrows.
  repeat split; [exact Hlen|]. intros r Hr. now apply Nat.eqb_eq, Hrows.
Qed.

Lemma join_rows_snoc (R : nat) (prefix : list (tensor A)) (w : nat) (L : Size)
  (rows : list (list A)) :
  length rows = R ->
  zip_with (@app A) (join_rows R prefix) rows =
  join_rows R (prefix ++ [TN L w rows]).
Proof.
  intros Hlen. unfold join_rows.
  rewrite <- (map_nth_seq rows []) at 1. rewrite Hlen, zip_with_map.
  apply map_ext. intros j.
  rewrite map_app, concat_app. simpl. now rewrite app_nil_r.
Qed.

Lemma join_rows_single (L : Size) (w : nat) (rows : list (list A)) :
  join_rows (length rows) [TN L w rows] = rows.
Proof.
  unfold join_rows. simpl.
  rewrite (map_ext _ (fun j => nth j rows [])) by (intros; apply app_nil_r).
  apply map_nth_seq.
Qed.

Lemma cat_fold_has_lead (L : Size) (rest prefix : list (tensor A)) (W : nat) :
  Forall (has_lead L) rest ->
  fold_left (fun acc u => a <- acc ;; cat2 a u) rest
            (Ok (TN L W (join_rows (numel L) prefix))) =
  Ok (TN L (W + list_sum (map trailing rest))
         (join_rows (numel L) (prefix ++ rest))).
Proof.
  intros Hrest. revert prefix W.
  induction Hrest as [|u rest Hu Hrest IH]; intros prefix W; simpl.
  - now rewrite Nat.add_0_r, app_nil_r.
  - destruct (has_lead_inv Hu) as (wu & ru & -> & Hlen & _).
    simpl. rewrite Size_eqb_refl.
    rewrite (join_rows_snoc prefix wu L ru Hlen), IH.
    rewrite <- app_assoc. simpl. f_equal. f_equal. lia.
Qed.

Lemma cat_from_has_lead (L : Size) (t : tensor A) (rest : list (tensor A)) :
  has_lead L t -> Forall (has_lead L) rest ->
  cat_from t rest =
  Ok (TN L (list_sum (map trailing (t :: rest)))
         (join_rows (numel L) (t :: rest))).
Proof.
  intros Ht Hrest. destruct (has_lead_inv Ht) as (w & rows & -> & Hlen & _).
  unfold cat_from.
  rewrite <- (join_rows_single L w rows) at 1. rewrite Hlen.
  rewrite (cat_fold_has_lead [TN L w rows] w Hrest). reflexivity.
Qed.

Lemma filter_legacy_nonscalar (L : Size) (ts : list (tensor A)) :
  L <> [] -> Forall (has_lead L) ts ->
  filter (fun t => negb (legacy_empty t)) ts = ts.
Proof.
  intros HL Hts. induction Hts as [|t ts Ht Hts IH]; simpl; [reflexivity|].
  destruct Ht as [_ (w & rows & ->)]. rewrite IH.
  destruct L; [congruence | reflexivity].
Qed.

Lemma filter_legacy_1d (ts : list (tensor A)) :
  Forall (has_lead []) ts ->
  let ts' := filter (fun t => negb (legacy_empty t)) ts in
  list_sum (map trailing ts') = list_sum (map trailing ts)
  /\ join_rows 1 ts' = join_rows 1 ts.
Proof.
  intros Hts. induction Hts as [|t ts Ht Hts IH]; simpl; [auto|].
  destruct IH as [IHsum IHrows].
  destruct (has_lead_inv Ht) as (w & rows & -> & Hlen & Hrows).
  unfold join_rows in *. simpl in IHrows |- *.
  injection IHrows as IHrows.
  destruct w as [|w]; simpl.
  - split; [exact IHsum|]. rewrite IHrows.
    destruct rows as [|r rows]; [reflexivity|]. simpl.
    assert (Hr : r = []) by (apply length_zero_iff_nil, Hrows; now left).
    now rewrite Hr.
  - split; [now rewrite IHsum|]. now rewrite IHrows.
Qed.

(** [torch.cat] on well-formed tensors that share their leading shape. *)
Lemma cat_has_lead (L : Size) (ts : list (tensor A)) :
  ts <> [] -> Forall (has_lead L) ts ->
  cat ts = Ok (TN L (list_sum (map trailing ts)) (join_rows (numel L) ts)).
Proof.
  intros Hne Hts. unfold cat.
  destruct ts as [|t0 ts0] eqn:Ets; [congruence|]. rewrite <- Ets in *.
  destruct L as [|n L].
  - destruct (filter_legacy_1d Hts) as [Hsum Hrows].
    assert (Hf : Forall (has_lead [])
                        (filter (fun t => negb (legacy_empty t)) ts)).
    { apply Forall_forall. intros t Ht. apply filter_In in Ht.
      rewrite Forall_forall in Hts. now apply Hts. }
    destruct (filter _ ts) as [|t rest].
    + change (numel []) with 1. rewrite <- Hsum, <- Hrows. reflexivity.
    + inversion Hf as [|? ? Ht Hrest]; subst.
      rewrite (cat_from_has_lead Ht Hrest), Hsum.
      change (numel []) with 1. now rewrite Hrows.
  - rewrite (filter_legacy_nonscalar (L:=n :: L)) by (congruence || assumption).
    rewrite Ets in *. inversion Hts as [|? ? Ht Hrest]; subst.
    apply (cat_from_has_lead Ht Hrest).
Qed.

End Concatenation.

(** ** Windows of a row *)

Lemma firstn_add {A : Type} (p q : nat) (l : list A) :
  firstn (p + q) l = firstn p l ++ firstn q (skipn p l).
Proof.
  revert l. induction p as [|p IH]; intros l; [reflexivity|].
  destruct l as [|x l]; simpl.
  - now rewrite firstn_nil.
  - now rewrite IH.
Qed.

Lemma window_glue {A : Type} (a b c : nat) (l : list A) :
  a <= b -> b <= c ->
  skipn a (firstn b l) ++ skipn b (firstn c l) = skipn a (firstn c l).
Proof.
  intros Hab Hbc. rewrite !skipn_firstn_comm.
  replace (skipn b l) with (skipn (b - a) (skipn a l))
    by (rewrite skipn_skipn; f_equal; lia).
  replace (c - a) with ((b - a) + (c - b)) by lia.
  now rewrite firstn_add.
Qed.

Lemma concat_windows_from {A : Type} (l : list A) (ns : list nat) (a : nat) :
  concat (map (fun i => skipn (a + offset ns i)
                          (firstn (a + offset ns i + nth i ns 0) l))
              (seq 0 (length ns))) =
  skipn a (firstn (a + list_sum ns) l).
Proof.
  revert a. induction ns as [|n ns IH]; intros a.
  - simpl. rewrite Nat.add_0_r, skipn_all2; [reflexivity|].
    apply firstn_le_length.
  - cbn [length seq map concat list_sum].
    rewrite <- seq_shift, map_map.
    rewrite (map_ext _ (fun i => skipn ((a + n) + offset ns i)
                             (firstn ((a + n) + offset ns i + nth i ns 0) l))).
    + rewrite IH. unfold offset. cbn [firstn list_sum nth].
      change (list_sum (@nil nat)) with 0.
      change (list_sum (n :: ns)) with (n + list_sum ns).
      rewrite !Nat.add_0_r, Nat.add_assoc. apply window_glue; lia.
    + intros i. rewrite offset_cons. cbn [nth]. f_equal; [lia|].
      f_equal. lia.
Qed.

Lemma concat_windows {A : Type} (l : list A) (ns : list nat) :
  length l = list_sum ns ->
  concat (map (fun i => skipn (offset ns i)
                          (firstn (offset ns i + nth i ns 0) l))
              (seq 0 (length ns))) = l.
Proof.
  intros Hl. pose proof (concat_windows_from l ns 0) as Hc.
  simpl in Hc. rewrite Hc, <- Hl. apply firstn_all.
Qed.

Lemma offset_le (ns : list nat) (i : nat) :
  i < length ns -> offset ns i + nth i ns 0 <= list_sum ns.
Proof.
  revert i. induction ns as [|n ns IH]; intros i Hi; simpl in Hi; [lia|].
  destruct i as [|i].
  - unfold offset. simpl. lia.
  - rewrite offset_cons. specialize (IH i ltac:(lia)). simpl. lia.
Qed.

(** ** The parts of a well-formed value *)

Section Parts.
Variable A : Type.
Variables (lead : Size) (w : nat) (rows : list (list A)).
Hypothesis Hwf : wf_tensor (TN lead w rows) = true.

Lemma wf_rows : length rows = numel lead /\ forall r, In r rows -> length r = w.
Proof.
  simpl in Hwf. apply andb_prop in Hwf. destruct Hwf as [Hlen Hrows].
  apply Nat.eqb_eq in Hlen. rewrite forallb_forall in Hrows.
  split; [exact Hlen|]. intros r Hr. now apply Nat.eqb_eq, Hrows.
Qed.

Lemma window_has_lead (a b : nat) :
  has_lead lead (window a b (TN lead w rows)).
Proof.
  destruct wf_rows as [Hlen Hrows]. split; [|simpl; eauto].
  simpl. apply andb_true_intro. split.
  - apply Nat.eqb_eq. now rewrite length_map.
  - apply forallb_forall. intros r Hr. apply in_map_iff in Hr.
    destruct Hr as (r0 & <- & Hr0). apply Nat.eqb_eq.
    rewrite length_skipn, length_firstn, (Hrows r0 Hr0). reflexivity.
Qed.

Lemma parts_have_lead (ns : list nat) :
  Forall (has_lead lead) (windows ns (TN lead w rows)).
Proof.
  apply Forall_forall. intros t Ht. apply in_map_iff in Ht.
  destruct Ht as (i & <- & _). apply window_has_lead.
Qed.

Lemma parts_trailing (ns : list nat) :
  list_sum ns <= w -> map trailing (windows ns (TN lead w rows)) = ns.
Proof.
  intros Hsum. unfold windows. rewrite map_map.
  transitivity (map (fun j => nth j ns 0) (seq 0 (length ns)));
    [|apply map_nth_seq].
  apply map_ext_in. intros i Hi. apply in_seq in Hi. simpl.
  pose proof (offset_le ns (i:=i)). lia.
Qed.

Lemma parts_join (ns : list nat) :
  w = list_sum ns ->
  join_rows (numel lead) (windows ns (TN lead w rows)) = rows.
Proof.
  intros Hw. destruct wf_rows as [Hlen Hrows]. unfold join_rows, windows.
  transitivity (map (fun j => nth j rows []) (seq 0 (length rows)));
    [|apply map_nth_seq].
  rewrite Hlen. apply map_ext_in. intros j Hj. apply in_seq in Hj.
  rewrite map_map. cbn [window rows_of].
  rewrite (map_ext _ (fun i => skipn (offset ns i)
                      (firstn (offset ns i + nth i ns 0) (nth j rows [])))).
  - apply concat_windows. rewrite <- Hw. apply Hrows, nth_In. lia.
  - intros i.
    rewrite <- (map_nth (fun r => skipn (offset ns i)
                                    (firstn (offset ns i + nth i ns 0) r))).
    now rewrite firstn_nil, skipn_nil.
Qed.

(** Concatenating the slices of a value of the right width gives the value
    back. *)
Lemma cat_parts (ns : list nat) :
  ns <> [] -> w = list_sum ns ->
  cat (windows ns (TN lead w rows)) = Ok (TN lead w rows).
Proof.
  intros Hne Hw.
  rewrite (cat_has_lead (L:=lead)).
  - rewrite parts_trailing by lia. rewrite parts_join by exact Hw.
    now rewrite <- Hw.
  - unfold windows. destruct ns; [congruence | discriminate].
  - apply parts_have_lead.
Qed.

End Parts.

(** ** The methods on a value with a trailing axis *)

Section Methods.
Context `{TorchEnv}.
Variables (d : Factorised.t) (lead : Size) (w : nat).
Variable rows : list (list scalar).
Hypothesis Hlen :
  length (Factorised._ndims d) = length (Factorised.factors d).

Lemma partition_slices :
  Factorised.partition_dimensions d (TN lead w rows) =
  iter (map (fun i => slice_of (Factorised._ndims d) i (TN lead w rows))
            (seq 0 (length (Factorised.factors d)))).
Proof.
  unfold Factorised.partition_dimensions, slice_of.
  now rewrite iterate_parts_windows, Hlen.
Qed.

Lemma zipped_slices {T : Type} (xs : list T) (i : nat) (x : T)
  (p : tensor scalar) :
  let nd := Factorised._ndims d in
  nth_error
    (combine xs (map (fun i => slice_of nd i (TN lead w rows))
                     (seq 0 (length (Factorised.factors d))))) i
  = Some (x, p) <->
  nth_error xs i = Some x /\ i < length (Factorised.factors d)
  /\ p = slice_of nd i (TN lead w rows).
Proof. intros nd. now rewrite nth_error_combine, nth_error_map_seq. Qed.

Lemma log_prob_indexed :
  Factorised.log_prob d (TN lead w rows) =
  sum_over (length (Factorised.factors d)) (factor_log_prob d (TN lead w rows)).
Proof.
  unfold Factorised.log_prob. rewrite partition_slices, zip_iter.
  rewrite (sum_from_indexed _ (factor_log_prob d (TN lead w rows))).
  - now rewrite length_combine, length_map, length_seq, Nat.min_id.
  - intros i [f p] Hi. apply zipped_slices in Hi. destruct Hi as (Hf & _ & ->).
    unfold factor_log_prob. now rewrite getitem_nat, Hf.
Qed.

Lemma factor_check_at (i : nat) (f : Distribution.t) (c : Constraint.t) :
  nth_error (Factorised.factors d) i = Some f ->
  Distribution.support f = Ok c ->
  factor_check d (TN lead w rows) i =
  (b <- Constraint.check c
          (slice_of (Factorised._ndims d) i (TN lead w rows)) ;;
   tensor_bool b).
Proof.
  intros Hf Hc. unfold factor_check. rewrite getitem_nat, Hf. simpl.
  now rewrite Hc.
Qed.


End Methods.

(** ** The divergence rule *)

Section Divergence.
Context `{KLRegistry}.
Variables p q : Factorised.t.

Lemma kl_at_pair (i : nat) (a b : Distribution.t) :
  nth_error (Factorised.factors p) i = Some a ->
  nth_error (Factorised.factors q) i = Some b ->
  kl_at p q i = kl_divergence a b.
Proof.
  intros Ha Hb. unfold kl_at. rewrite !getitem_nat, Ha, Hb. reflexivity.
Qed.

(** [zip] stops at the shorter sequence: the sum runs over the indices both
    sequences have. *)
Lemma kl_indexed :
  _kl_factorised_factorised p q =
  sum_over (Nat.min (length (Factorised.factors p))
                    (length (Factorised.factors q)))
           (kl_at p q).
Proof.
  unfold _kl_factorised_factorised.
  rewrite (sum_from_indexed _ (kl_at p q)).
  - now rewrite length_combine.
  - intros i [a b] Hi. apply nth_error_combine in Hi. destruct Hi as [Ha Hb].
    symmetry. now apply kl_at_pair.
Qed.


End Divergence.

Section FirstRaise.
Context `{TorchEnv}.


End FirstRaise.

(** ** Sampling *)

Lemma shape_trailing_inv {A : Type} (L : Size) (n : nat) (x : tensor A) :
  wf_tensor x = true -> shape x = L ++ [n] ->
  has_lead L x /\ trailing x = n.
Proof.
  intros Hwf Hs. destruct x as [a|l w rows]; simpl in Hs.
  - now apply app_cons_not_nil in Hs.
  - apply app_inj_tail in Hs. destruct Hs as [-> ->].
    split; [split; eauto | reflexivity].
Qed.

Lemma join_row_length {A : Type} (L : Size) (ts : list (tensor A)) (j : nat) :
  Forall (has_lead L) ts -> j < numel L ->
  map (@length A) (map (fun t => nth j (rows_of t) []) ts) = map trailing ts.
Proof.
  intros Hts Hj. induction Hts as [|t ts Ht Hts IH]; simpl; [reflexivity|].
  rewrite IH. f_equal.
  destruct (has_lead_inv Ht) as (w & rows & -> & Hlen & Hrows). simpl.
  apply Hrows, nth_In. lia.
Qed.

Lemma length_concat_sum {A : Type} (ls : list (list A)) :
  length (concat ls) = list_sum (map (@length A) ls).
Proof.
  induction ls as [|l ls IH]; simpl; [reflexivity|].
  now rewrite length_app, IH.
Qed.

Lemma joined_wf {A : Type} (L : Size) (ts : list (tensor A)) :
  Forall (has_lead L) ts ->
  wf_tensor (TN L (list_sum (map trailing ts)) (join_rows (numel L) ts)) = true.
Proof.
  intros Hts. simpl. apply andb_true_intro. split.
  - apply Nat.eqb_eq. unfold join_rows. now rewrite length_map, length_seq.
  - apply forallb_forall. intros r Hr. unfold join_rows in Hr.
    apply in_map_iff in Hr. destruct Hr as (j & <- & Hj).
    apply in_seq in Hj. apply Nat.eqb_eq.
    rewrite length_concat_sum, (join_row_length (L:=L));
      [reflexivity | assumption | lia].
Qed.

Lemma window_of_concat {A : Type} (ls : list (list A)) (i : nat) :
  let ns := map (@length A) ls in
  skipn (offset ns i) (firstn (offset ns i + nth i ns 0) (concat ls)) =
  nth i ls [].
Proof.
  revert i. induction ls as [|l ls IH]; intros i; simpl.
  - destruct i; unfold offset; simpl; now rewrite ?firstn_nil, ?skipn_nil.
  - destruct i as [|i].
    + unfold offset. simpl. rewrite firstn_app, firstn_all, Nat.sub_diag.
      simpl. apply app_nil_r.
    + rewrite offset_cons. simpl in IH. rewrite <- (IH i).
      rewrite <- Nat.add_assoc, firstn_app_2, skipn_app.
      rewrite skipn_all2 by lia. simpl. f_equal. lia.
Qed.

Lemma nth_map_in {S T : Type} (f : S -> T) (l : list S) (d' : T) (d : S)
  (i : nat) :
  i < length l -> nth i (map f l) d' = f (nth i l d).
Proof.
  revert i. induction l as [|x l IH]; intros [|i] Hi; simpl in *;
    try lia; [reflexivity|].
  apply IH. lia.
Qed.

(** Slicing a concatenation at the positions of its pieces gives the
    pieces back. *)
Lemma windows_of_joined {A : Type} (L : Size) (ts : list (tensor A)) :
  Forall (has_lead L) ts ->
  let ns := map trailing ts in
  map (fun i => window (offset ns i) (offset ns i + nth i ns 0)
                       (TN L (list_sum ns) (join_rows (numel L) ts)))
      (seq 0 (length ns)) = ts.
Proof.
  intros Hts ns.
  transitivity (map (fun i => nth i ts (TN [] 0 [])) (seq 0 (length ts)));
    [|apply map_nth_seq].
  replace (length ns) with (length ts) by (unfold ns; now rewrite length_map).
  apply map_ext_in. intros i Hi. apply in_seq in Hi.
  assert (Hin : In (nth i ts (TN [] 0 [])) ts) by (apply nth_In; lia).
  rewrite Forall_forall in Hts. pose proof (Hts _ Hin) as Hti.
  destruct (has_lead_inv Hti) as (wi & ri & Ei & Hlen & Hrows).
  assert (Hwi : nth i ns 0 = wi).
  { unfold ns. rewrite (nth_map_in trailing ts 0 (TN [] 0 [])) by lia.
    now rewrite Ei. }
  rewrite Ei. cbn [window]. f_equal.
  - assert (Hlt : i < length ns) by (unfold ns; rewrite length_map; lia).
    pose proof (offset_le ns Hlt). lia.
  - unfold join_rows. rewrite map_map.
    transitivity (map (fun j => nth j ri []) (seq 0 (length ri)));
      [|apply map_nth_seq].
    rewrite Hlen. apply map_ext_in. intros j Hj. apply in_seq in Hj.
    assert (Hns : ns = map (@length A)
                           (map (fun t => nth j (rows_of t) []) ts)).
    { symmetry. apply (join_row_length (L:=L)); [|lia].
      now apply Forall_forall. }
    rewrite Hns, window_of_concat.
    rewrite (nth_map_in (fun t => nth j (rows_of t) []) ts [] (TN [] 0 []))
      by lia.
    now rewrite Ei.
Qed.

Section Sampling.
Context `{TorchEnv}.

Lemma draw_has_lead (L sample_shape : Size) (fs : list Distribution.t) :
  Forall (fun f => forall g, exists x g',
            Distribution.rsample f sample_shape g = Ok (x, g')
            /\ has_lead L x /\ trailing x = event_width f) fs ->
  forall g, exists xs g',
    Factorised.draw fs sample_shape g = Ok (xs, g')
    /\ Forall (has_lead L) xs
    /\ map trailing xs = map event_width fs.
Proof.
  intros Hfs. induction Hfs as [|f fs Hf Hfs IH]; intros g; simpl.
  - exists [], g. auto.
  - destruct (Hf g) as (x & g1 & Hx & Hlead & Hw). rewrite Hx. simpl.
    destruct (IH g1) as (xs & g2 & Hxs & Hall & Hws). rewrite Hxs. simpl.
    exists (x :: xs), g2. repeat split; [now constructor|].
    simpl. now rewrite Hw, Hws.
Qed.

End Sampling.

(** ** The sum and the truth value, against their written-out forms *)

Lemma tensor_bool_true_iff (t : tensor bool) :
  tensor_bool t = Ok true <-> elements t = [true].
Proof.
  unfold tensor_bool. destruct (elements t) as [|b [|b' l]]; split;
    try discriminate.
  - intros Hb. injection Hb as ->. reflexivity.
  - intros Hb. injection Hb as ->. reflexivity.
Qed.



Section Written.
Context `{TorchEnv}.

Lemma fold_sum_Err (terms : list (result pyval)) (e : exn) :
  fold_left (fun acc t => a <- acc ;; v <- t ;; py_add a v) terms (Err e)
  = Err e.
Proof. induction terms as [|t terms IH]; simpl; auto. Qed.

Lemma sum_from_written {T : Type} (term : T -> result pyval) (l : list T)
  (acc : pyval) :
  sum_from term (iter l) acc
  = fold_left (fun acc t => a <- acc ;; v <- t ;; py_add a v) (map term l)
              (Ok acc).
Proof.
  revert acc. induction l as [|x l IH]; intros acc; [reflexivity|].
  simpl. destruct (term x) as [v|e]; simpl.
  - destruct (py_add acc v) as [acc'|e]; simpl;
      [apply IH | now rewrite fold_sum_Err].
  - now rewrite fold_sum_Err.
Qed.

Lemma py_sum_written {T : Type} (term : T -> result pyval) (l : list T) :
  py_sum term (iter l) = sum_spec (map term l).
Proof. apply sum_from_written. Qed.


Lemma own_check_verdict (f : Distribution.t) (x : tensor scalar) :
  own_check f x = (t <- own_verdict f x ;; tensor_bool t).
Proof.
  unfold own_check, own_verdict.
  destruct (Distribution.support f) as [c|e]; reflexivity.
Qed.

Lemma single_true_verdict (c : result (tensor bool)) :
  (t <- c ;; tensor_bool t) = Ok true <->
  exists t, c = Ok t /\ elements t = [true].
Proof.
  rewrite bind_Ok. split; intros (t & Ht & Hb); exists t;
    (split; [exact Ht | now apply tensor_bool_true_iff]).
Qed.


End Written.

(** * The specification, statement by statement *)

(** The guard of line 33 is missing on line 32: a scalar-valued factor makes
    the constructor raise, so the width 1 is never cached. *)
Lemma init_rejects_scalar_factor `{TorchEnv} (fs : list Distribution.t)
  (va : option bool) (f : Distribution.t) :
  In f fs -> Distribution.event_shape f = [] ->
  Factorised.__init__ fs va = Err IndexError.
Proof.
  intros Hin Hnil. rewrite init_cases. destruct fs as [|first rest];
    [reflexivity|].
  destruct (forallb _ (first :: rest)) eqn:Hall; [|reflexivity].
  rewrite forallb_forall in Hall. specialize (Hall f Hin).
  rewrite Hnil in Hall. discriminate.
Qed.

Lemma init_rejects_demo_scalar :
  Factorised.__init__ [Demo.dist1; Demo.scalar_factor [5]] None
  = Err IndexError.
Proof. reflexivity. Qed.

(** C1. Whenever the constructor returns, the cached width of each factor
    is the leading entry of its event shape and [event_shape] is the single
    dimension that sums the widths.  Line 33 gives a scalar-valued factor
    the width 1, but line 32 reads [event_shape[0]] of every factor without
    that guard: a factor sequence that holds a scalar-valued factor makes
    the constructor raise IndexError, and the width 1 is never cached. *)
Theorem scalar_factor_width_never_cached `{TorchEnv}
  (fs : list Distribution.t) (va : option bool) :
  (forall d, Factorised.__init__ fs va = Ok d ->
     Forall2 (fun f n => exists rest, Distribution.event_shape f = n :: rest)
             fs (Factorised._ndims d)
     /\ Factorised.event_shape d = [list_sum (Factorised._ndims d)])
  /\ (forall f, In f fs -> Distribution.event_shape f = [] ->
       Factorised.ndim_of f = Ok 1
       /\ Factorised.__init__ fs va = Err IndexError).
Proof.
  split.
  - intros d Hd. apply init_Ok in Hd.
    destruct Hd as (_ & Hev & _ & Hn & _ & He). rewrite Hn. split; [|exact He].
    clear He Hn. induction Hev as [|f fs Hf Hev IH]; constructor; [|exact IH].
    unfold event_width.
    destruct (Distribution.event_shape f) as [|n rest]; [congruence | eauto].
  - intros f Hin Hnil. split.
    + unfold Factorised.ndim_of. now rewrite Hnil.
    + now apply init_rejects_scalar_factor with (f := f).
Qed.

Lemma scalar_factor_width_never_cached_witness :
  In (Demo.scalar_factor [5]) [Demo.dist1; Demo.scalar_factor [5]]
  /\ Distribution.event_shape (Demo.scalar_factor [5]) = []
  /\ Factorised.ndim_of (Demo.scalar_factor [5]) = Ok 1
  /\ Factorised.__init__ [Demo.dist1; Demo.scalar_factor [5]] None
     = Err IndexError.
Proof.
  split; [right; left; reflexivity|]. split; [reflexivity|].
  exact (proj2 (@scalar_factor_width_never_cached Demo.env
                  [Demo.dist1; Demo.scalar_factor [5]] None)
               (Demo.scalar_factor [5])
               (or_intror (or_introl eq_refl)) eq_refl).
Defined.

(** C2. On a value whose trailing dimension is the summed event width,
    [partition_dimensions] yields one contiguous slice per factor, in factor
    order, of the cached widths, and concatenating the slices along the
    trailing axis gives the value back. *)
Theorem partition_roundtrip `{TorchEnv} (fs : list Distribution.t)
  (va : option bool) (d : Factorised.t) (lead : Size) (w : nat)
  (rows : list (list scalar)) :
  Factorised.__init__ fs va = Ok d ->
  wf_tensor (TN lead w rows) = true ->
  Factorised.event_shape d = [w] ->
  let v := TN lead w rows in
  let parts := map (fun i => slice_of (Factorised._ndims d) i v)
                   (seq 0 (length (Factorised.factors d))) in
  Factorised.partition_dimensions d v = iter parts
  /\ map trailing parts = Factorised._ndims d
  /\ Forall (has_lead lead) parts
  /\ cat parts = Ok v.
Proof.
  intros Hd Hwf He v parts.
  pose proof (init_ndims_length _ _ Hd) as Hlen.
  apply init_Ok in Hd. destruct Hd as (Hne & _ & Hf & Hn & _ & He').
  assert (Hw : w = list_sum (Factorised._ndims d)) by congruence.
  assert (Hns : Factorised._ndims d <> []).
  { rewrite Hn. destruct fs; [congruence | discriminate]. }
  subst parts v. unfold slice_of. rewrite <- Hlen.
  repeat split.
  - unfold Factorised.partition_dimensions. apply iterate_parts_windows.
  - apply parts_trailing. lia.
  - apply parts_have_lead. exact Hwf.
  - apply cat_parts; assumption.
Qed.

Lemma partition_roundtrip_witness :
  Factorised.__init__ [Demo.dist1; Demo.dist2] None = Ok Demo.fact
  /\ wf_tensor Demo.value7 = true
  /\ Factorised.event_shape Demo.fact = [7]
  /\ cat (map (fun i => @slice_of Demo.env (Factorised._ndims Demo.fact) i
                                  Demo.value7)
              (seq 0 (length (Factorised.factors Demo.fact))))
     = Ok Demo.value7.
Proof.
  split; [reflexivity|]. split; [reflexivity|]. split; [reflexivity|].
  exact (proj2 (proj2 (proj2
           (@partition_roundtrip Demo.env [Demo.dist1; Demo.dist2] None
              Demo.fact [1] 7 [[1; 2; 3; 4; 5; 6; 7]%Z]
              eq_refl eq_refl eq_refl)))).
Defined.

(** C3. On a value of the right trailing width, [log_prob] splits the
    trailing axis into contiguous prefix slices of the cached widths, left
    to right in factor order, and returns the sum of each factor's
    log-density on its slice: [((0 + l0) + l1) + ...]. *)
Theorem log_prob_sums_factor_slices `{TorchEnv} (fs : list Distribution.t)
  (va : option bool) (d : Factorised.t) (lead : Size) (w : nat)
  (rows : list (list scalar)) :
  Factorised.__init__ fs va = Ok d ->
  Factorised.event_shape d = [w] ->
  let v := TN lead w rows in
  let nd := Factorised._ndims d in
  Factorised.log_prob d v
  = sum_spec (map (factor_log_prob d v)
                  (seq 0 (length (Factorised.factors d))))
  /\ offset nd 0 = 0
  /\ forall i, i < length (Factorised.factors d) ->
       offset nd (S i) = offset nd i + nth i nd 0
       /\ trailing (slice_of nd i v) = nth i nd 0.
Proof.
  intros Hd He v nd.
  pose proof (init_ndims_length _ _ Hd) as Hlen.
  apply init_Ok in Hd. destruct Hd as (_ & _ & _ & Hn & _ & He').
  assert (Hw : w = list_sum nd) by (subst nd; congruence).
  repeat split.
  - subst v. rewrite (@log_prob_indexed _ d lead w rows Hlen).
    apply py_sum_written.
  - apply offset_step. subst nd. lia.
  - subst v. unfold slice_of. simpl.
    assert (Hi : i < length nd) by (subst nd; lia).
    pose proof (offset_le nd Hi). lia.
Qed.

Lemma log_prob_sums_factor_slices_witness :
  Factorised.__init__ [Demo.dist1; Demo.dist2] None = Ok Demo.fact
  /\ Factorised.event_shape Demo.fact = [7]
  /\ Factorised.log_prob Demo.fact Demo.value7
     = sum_spec (map (factor_log_prob Demo.fact Demo.value7) (seq 0 2))
  /\ sum_spec (map (factor_log_prob Demo.fact Demo.value7) (seq 0 2))
     = Ok ((0 + (1 + 2 + 3)) + (4 + 5 + 6 + 7))%Z.
Proof.
  split; [reflexivity|]. split; [reflexivity|]. split; [|reflexivity].
  exact (proj1
           (@log_prob_sums_factor_slices Demo.env [Demo.dist1; Demo.dist2] None
              Demo.fact [1] 7 [[1; 2; 3; 4; 5; 6; 7]%Z] eq_refl eq_refl)).
Defined.




(** C5. For two factorised distributions with factor sequences of equal
    length, the registered divergence is the sum over the index [i] of the
    divergence between [p.factors[i]] and [q.factors[i]]:
    [((0 + k0) + k1) + ...]. *)
Theorem kl_sums_factor_pairs `{KLRegistry} (p q : Factorised.t) :
  length (Factorised.factors p) = length (Factorised.factors q) ->
  _kl_factorised_factorised p q
  = sum_spec (map (kl_at p q) (seq 0 (length (Factorised.factors p)))).
Proof.
  intros Hlen. rewrite kl_indexed, <- Hlen, Nat.min_id.
  apply py_sum_written.
Qed.

Lemma kl_sums_factor_pairs_witness :
  length (Factorised.factors Demo.fact)
  = length (Factorised.factors Demo.swapped)
  /\ @_kl_factorised_factorised Demo.env Batched.registry
       Demo.fact Demo.swapped
     = sum_spec (map (@kl_at Demo.env Batched.registry Demo.fact Demo.swapped)
                     (seq 0 2))
  /\ sum_spec (map (@kl_at Demo.env Batched.registry Demo.fact Demo.swapped)
                   (seq 0 2))
     = Ok ((0 + 34) + 43)%Z.
Proof.
  split; [reflexivity|]. split; [|reflexivity].
  exact (@kl_sums_factor_pairs Demo.env Batched.registry Demo.fact
           Demo.swapped eq_refl).
Defined.




(** ** Values of another width *)


Lemma log_prob_zero_dim `{TorchEnv} (fs : list Distribution.t)
  (va : option bool) (d : Factorised.t) (x : scalar) :
  Factorised.__init__ fs va = Ok d ->
  Factorised.log_prob d (T0 x) = Err IndexError.
Proof.
  intros Hd. apply init_Ok in Hd.
  destruct Hd as (Hne & _ & Hf & Hn & _).
  unfold Factorised.log_prob, Factorised.partition_dimensions.
  rewrite Hf, Hn. destruct fs as [|f fs]; [congruence | reflexivity].
Qed.



(** On a narrower value the slicing still succeeds; the exception is the
    second factor's, raised on the two elements it is handed. *)
Lemma narrower_value_fails_in_factor :
  Factorised.partition_dimensions Demo.fact Demo.value5
  = iter [TN [1] 3 [[1; 2; 3]%Z]; TN [1] 2 [[4; 5]%Z]]
  /\ Factorised.log_prob Demo.fact Demo.value5 = Err ValueError.
Proof. split; reflexivity. Qed.


(** ** Sampling from the demonstration factors *)

Lemma forallb_repeat {T : Type} (f : T -> bool) (x : T) (n : nat) :
  f x = true -> forallb f (repeat x n) = true.
Proof.
  intros Hx. induction n as [|n IH]; simpl; [reflexivity|].
  now rewrite Hx, IH.
Qed.

Lemma vector_factor_samples (batch : Size) (w : nat) (sample_shape : Size) :
  @samples_as_declared Demo.env sample_shape (Demo.vector_factor batch w).
Proof.
  intros g. eexists. eexists. split; [reflexivity|]. split.
  - simpl. apply andb_true_intro. split.
    + apply Nat.eqb_eq. apply repeat_length.
    + apply forallb_repeat. apply Nat.eqb_eq. apply repeat_length.
  - simpl. now rewrite <- app_assoc.
Qed.

(** C8. For factors that share the batch shape, have a one-dimensional
    event and sample as declared, reparameterised sampling draws one sample
    per factor, in factor order, and concatenates them along the trailing
    axis, each factor keeping its own width: the result has shape
    [sample_shape + batch_shape + event_shape], and partitioning it gives
    the per-factor samples back. *)
Theorem rsample_concatenates_factor_samples `{TorchEnv}
  (fs : list Distribution.t) (va : option bool) (d : Factorised.t)
  (sample_shape : Size) (g : rng) :
  Factorised.__init__ fs va = Ok d ->
  Forall (fun f => Distribution.batch_shape f = Factorised.batch_shape d) fs ->
  Forall (fun f => length (Distribution.event_shape f) = 1) fs ->
  Forall (samples_as_declared sample_shape) fs ->
  exists xs x g',
    Factorised.draw (Factorised.factors d) sample_shape g = Ok (xs, g')
    /\ cat xs = Ok x
    /\ Factorised.rsample d sample_shape g = Ok (x, g')
    /\ map trailing xs = Factorised._ndims d
    /\ shape x = sample_shape ++ Factorised.batch_shape d
                              ++ Factorised.event_shape d
    /\ wf_tensor x = true
    /\ Factorised.partition_dimensions d x = iter xs.
Proof.
  intros Hd Hbatch Hevent Hsample.
  apply init_Ok in Hd. destruct Hd as (Hne & _ & Hf & Hn & _ & He).
  set (L := sample_shape ++ Factorised.batch_shape d).
  assert (Hfs : Forall (fun f => forall g0, exists x g',
                  Distribution.rsample f sample_shape g0 = Ok (x, g')
                  /\ has_lead L x /\ trailing x = event_width f) fs).
  { rewrite Forall_forall in *. intros f Hin g0.
    destruct (Hsample f Hin g0) as (x & g' & Hx & Hwf & Hshape).
    exists x, g'. split; [exact Hx|].
    rewrite (Hbatch f Hin) in Hshape. pose proof (Hevent f Hin) as Hlen.
    unfold event_width.
    destruct (Distribution.event_shape f) as [|n [|m es]];
      try discriminate Hlen.
    rewrite app_assoc in Hshape. now apply shape_trailing_inv. }
  destruct (@draw_has_lead _ L sample_shape fs Hfs g)
    as (xs & g' & Hxs & Hlead & Hws).
  assert (Hxne : xs <> []).
  { intros ->. destruct fs; [congruence | discriminate Hws]. }
  pose proof (@cat_has_lead _ L xs Hxne Hlead) as Hcat.
  exists xs, (TN L (list_sum (map trailing xs)) (join_rows (numel L) xs)), g'.
  rewrite Hf. repeat split.
  - exact Hxs.
  - exact Hcat.
  - unfold Factorised.rsample. rewrite Hf, Hxs. cbn [bind fst snd].
    now rewrite Hcat.
  - now rewrite Hn.
  - cbn [shape]. subst L. now rewrite He, Hws, app_assoc.
  - now apply joined_wf.
  - unfold Factorised.partition_dimensions.
    rewrite Hn, <- Hws, iterate_parts_windows. f_equal.
    now apply windows_of_joined.
Qed.

Lemma rsample_concatenates_factor_samples_witness :
  Factorised.__init__ [Demo.dist1; Demo.dist2] None = Ok Demo.fact
  /\ exists xs x g',
       Factorised.draw (Factorised.factors Demo.fact) [2] 0 = Ok (xs, g')
       /\ cat xs = Ok x
       /\ Factorised.rsample Demo.fact [2] 0 = Ok (x, g')
       /\ map trailing xs = Factorised._ndims Demo.fact
       /\ shape x = [2] ++ Factorised.batch_shape Demo.fact
                        ++ Factorised.event_shape Demo.fact
       /\ wf_tensor x = true
       /\ Factorised.partition_dimensions Demo.fact x = iter xs.
Proof.
  split; [reflexivity|].
  apply (@rsample_concatenates_factor_samples Demo.env
           [Demo.dist1; Demo.dist2] None Demo.fact [2] 0 eq_refl).
  - repeat constructor.
  - repeat constructor.
  - repeat constructor; apply vector_factor_samples.
Defined.

(** A single factor whose event is a 2 x 3 matrix: the constructor reads the
    first event dimension, the concatenation runs along the last one, and
    the sample has one dimension more than [event_shape] announces. *)
Lemma matrix_event_sample_shape :
  Factorised.__init__ [Demo.matrix_factor [5]] None = Ok Demo.matrices
  /\ exists x g',
       Factorised.rsample Demo.matrices [4] 0 = Ok (x, g')
       /\ shape x = [4; 5; 2; 3]
       /\ [4] ++ Factorised.batch_shape Demo.matrices
              ++ Factorised.event_shape Demo.matrices = [4; 5; 2]
       /\ shape x <> [4] ++ Factorised.batch_shape Demo.matrices
                         ++ Factorised.event_shape Demo.matrices.
Proof.
  split; [reflexivity|].
  eexists. eexists. split; [reflexivity|].
  split; [reflexivity|]. split; [reflexivity|].
  intros Hs. discriminate Hs.
Qed.

(** The module's demonstration: widths 3 and 4 on a batch of 5, [N] draws
    give a tensor of shape (N, 5, 7). *)
Lemma demo_sample_shape (N : nat) (g : nat) :
  exists x g', Factorised.rsample Demo.fact [N] g = Ok (x, g')
               /\ shape x = [N; 5; 7].
Proof.
  unfold Factorised.rsample. simpl. unfold cat_from. simpl.
  rewrite Nat.eqb_refl. simpl.
  eexists. eexists. split; reflexivity.
Qed.

(** ** Marginals *)

Section Marginal.
Context `{TorchEnv}.

Lemma pick_in_range (fs : list Distribution.t) (idx : list Z) :
  Forall (in_range (length fs)) idx ->
  exists picked,
    comprehension (getitem fs) idx = Ok picked
    /\ Forall2 (fun i f => nth_error fs (norm_index (length fs) i) = Some f)
               idx picked.
Proof.
  intros Hidx. induction Hidx as [|i idx Hi Hidx IH]; simpl.
  - exists []. split; [reflexivity | constructor].
  - destruct (getitem_norm fs Hi) as (f & Hnth & Hget).
    destruct IH as (picked & Hpicked & Hall).
    exists (f :: picked). rewrite Hget, Hpicked. split; [reflexivity|].
    now constructor.
Qed.

Lemma picked_from (fs : list Distribution.t) (idx : list Z)
  (picked : list Distribution.t) :
  Forall2 (fun i f => nth_error fs (norm_index (length fs) i) = Some f)
          idx picked ->
  Forall (fun f => In f fs) picked.
Proof.
  intros Hall. induction Hall as [|i f idx picked Hf Hall IH]; constructor.
  - eapply nth_error_In; eauto.
  - exact IH.
Qed.

Lemma alloc_frame (h : Store.t) (o : Factorised.t) (r : Store.ref)
  (o' : Factorised.t) :
  Store.deref h r = Some o' ->
  Store.deref (snd (Store.alloc h o)) r = Some o'.
Proof.
  unfold Store.deref, Store.alloc. simpl. intros Hr.
  rewrite nth_error_app1; [exact Hr|].
  apply nth_error_Some. congruence.
Qed.

Lemma alloc_fresh (h : Store.t) (o : Factorised.t) :
  Store.deref h (fst (Store.alloc h o)) = None
  /\ Store.deref (snd (Store.alloc h o)) (fst (Store.alloc h o)) = Some o.
Proof.
  unfold Store.deref, Store.alloc. simpl. split.
  - apply nth_error_None. lia.
  - rewrite nth_error_app2, Nat.sub_diag by lia. reflexivity.
Qed.

End Marginal.

(** C9. For a non-empty sequence of in-range indices (reordered, a subset,
    repeated), [marginal] returns a new distribution whose factors are the
    selected factors of [d] in the order of the indices; [d] and every other
    object of the store are unchanged. *)
Theorem marginal_selects_factors `{TorchEnv} (h : Store.t) (self : Store.ref)
  (fs : list Distribution.t) (va : option bool) (d : Factorised.t)
  (idx : list Z) :
  Store.deref h self = Some d ->
  Factorised.__init__ fs va = Ok d ->
  idx <> [] ->
  Forall (in_range (length (Factorised.factors d))) idx ->
  exists r h' d',
    Store.marginal h self idx = Some (Ok (r, h'))
    /\ Store.deref h r = None
    /\ Store.deref h' r = Some d'
    /\ Forall2 (fun i f =>
                  nth_error (Factorised.factors d)
                            (norm_index (length (Factorised.factors d)) i)
                  = Some f)
               idx (Factorised.factors d')
    /\ Factorised._ndims d' = map event_width (Factorised.factors d')
    /\ (forall r0 o, Store.deref h r0 = Some o -> Store.deref h' r0 = Some o)
    /\ Store.deref h' self = Some d.
Proof.
  intros Hself Hd Hne Hidx.
  apply init_Ok in Hd. destruct Hd as (_ & Hev & Hf & _).
  destruct (@pick_in_range _ (Factorised.factors d) idx Hidx)
    as (picked & Hpicked & Hall).
  assert (Hpne : picked <> []).
  { intros ->. inversion Hall. congruence. }
  assert (Hpev : Forall (fun f => Distribution.event_shape f <> []) picked).
  { pose proof (@picked_from _ _ _ _ Hall) as Hin. rewrite Forall_forall in *.
    intros f Hfp. apply Hev. rewrite <- Hf. now apply Hin. }
  destruct (@init_succeeds _ picked (Some (Factorised._validate_args d))
              Hpne Hpev) as [d' Hd'].
  pose proof (@init_Ok _ _ _ _ Hd') as (_ & _ & Hf' & Hn' & _).
  destruct (@alloc_fresh _ h d') as [Hfresh Hnew].
  exists (fst (Store.alloc h d')), (snd (Store.alloc h d')), d'.
  repeat split.
  - unfold Store.marginal, Factorised.marginal.
    rewrite Hself, Hpicked. cbn [bind]. rewrite Hd'. reflexivity.
  - exact Hfresh.
  - exact Hnew.
  - now rewrite Hf'.
  - now rewrite Hn', Hf'.
  - intros r0 o. apply alloc_frame.
  - now apply alloc_frame.
Qed.

Lemma marginal_selects_factors_witness :
  Store.deref [Demo.fact] 0 = Some Demo.fact
  /\ Factorised.__init__ [Demo.dist1; Demo.dist2] None = Ok Demo.fact
  /\ [1; -2; 1]%Z <> []
  /\ exists r h' d',
       Store.marginal [Demo.fact] 0 [1; -2; 1]%Z = Some (Ok (r, h'))
       /\ Store.deref [Demo.fact] r = None
       /\ Store.deref h' r = Some d'
       /\ Forall2 (fun i f =>
                     nth_error (Factorised.factors Demo.fact)
                       (norm_index (length (Factorised.factors Demo.fact)) i)
                     = Some f)
                  [1; -2; 1]%Z (Factorised.factors d')
       /\ Factorised._ndims d' = map event_width (Factorised.factors d')
       /\ (forall r0 o, Store.deref [Demo.fact] r0 = Some o ->
                        Store.deref h' r0 = Some o)
       /\ Store.deref h' 0 = Some Demo.fact.
Proof.
  split; [reflexivity|]. split; [reflexivity|].
  split; [intros Hnil; discriminate Hnil|].
  apply (@marginal_selects_factors Demo.env [Demo.fact] 0
           [Demo.dist1; Demo.dist2] None Demo.fact [1; -2; 1]%Z
           eq_refl eq_refl).
  - intros Hnil; discriminate Hnil.
  - repeat constructor; simpl; lia.
Defined.

(** The empty index sequence is in range, and the call raises. *)
Lemma marginal_of_no_index_raises :
  Store.deref [Demo.fact] 0 = Some Demo.fact
  /\ Factorised.__init__ [Demo.dist1; Demo.dist2] None = Ok Demo.fact
  /\ Forall (in_range (length (Factorised.factors Demo.fact))) []
  /\ Store.marginal [Demo.fact] 0 [] = Some (Err IndexError).
Proof.
  split; [reflexivity|]. split; [reflexivity|]. split; [constructor|].
  reflexivity.
Qed.

(** C10. Constructing from an empty factor sequence raises IndexError when
    the first factor's batch shape is read; so does [marginal] on an empty
    index sequence. *)
Theorem empty_factors_rejected `{TorchEnv} :
  (forall va, Factorised.__init__ [] va = Err IndexError)
  /\ (forall d, Factorised.marginal d [] = Err IndexError)
  /\ (forall h self,
        Store.marginal h self []
        = option_map (fun _ => Err IndexError) (Store.deref h self)).
Proof.
  split; [|split].
  - intros va. reflexivity.
  - intros d. reflexivity.
  - intros h self. unfold Store.marginal.
    destruct (Store.deref h self); reflexivity.
Qed.

(** * Further properties of the module *)

(** ** Which calls return *)

Lemma getitem_Ok_inv {T : Type} (l : list T) (i : Z) (x : T) :
  getitem l i = Ok x ->
  in_range (length l) i /\ nth_error l (norm_index (length l) i) = Some x.
Proof.
  unfold getitem, in_range, norm_index.
  set (j := if (i <? 0)%Z then (i + Z.of_nat (length l))%Z else i).
  destruct (Z.ltb_spec j 0) as [Hneg|Hpos]; [discriminate|].
  destruct (nth_error l (Z.to_nat j)) as [y|] eqn:Hn; [|discriminate].
  intros Hx. injection Hx as <-. split; [|reflexivity].
  assert (Hlt : Z.to_nat j < length l) by (apply nth_error_Some; congruence).
  subst j. destruct (Z.ltb_spec i 0); lia.
Qed.

Lemma getitem_Err {T : Type} (l : list T) (i : Z) (e : exn) :
  getitem l i = Err e -> e = IndexError.
Proof.
  unfold getitem. destruct (_ <? 0)%Z; [congruence|].
  destruct (nth_error l _); congruence.
Qed.

Lemma getitem_In {T : Type} (l : list T) (i : Z) (x : T) :
  getitem l i = Ok x -> In x l.
Proof.
  intros Hx. apply getitem_Ok_inv in Hx. destruct Hx as [_ Hn].
  eapply nth_error_In; eauto.
Qed.

Lemma comprehension_Err {S T : Type} (f : S -> result T) (xs : list S)
  (E e : exn) :
  (forall x e', f x = Err e' -> e' = E) ->
  comprehension f xs = Err e -> e = E.
Proof.
  intros Hf. induction xs as [|x xs IH]; simpl; [discriminate|].
  destruct (f x) as [y|e1] eqn:Hx; simpl.
  - destruct (comprehension f xs) as [ys|e2]; simpl; [discriminate|].
    intros He. injection He as <-. now apply IH.
  - intros He. injection He as <-. eapply Hf; eauto.
Qed.

Lemma comprehension_getitem_seq {T : Type} (pre l : list T) :
  comprehension (getitem (pre ++ l))
                (map Z.of_nat (seq (length pre) (length l))) = Ok l.
Proof.
  revert pre. induction l as [|x l IH]; intros pre; [reflexivity|].
  cbn [length seq map comprehension].
  rewrite getitem_nat, nth_error_app2, Nat.sub_diag by lia.
  cbn [nth_error bind].
  specialize (IH (pre ++ [x])).
  rewrite <- app_assoc, length_app, Nat.add_1_r in IH. cbn [app] in IH.
  now rewrite IH.
Qed.

Section Returns.
Context `{TorchEnv}.

Lemma init_Err (fs : list Distribution.t) (va : option bool) (e : exn) :
  Factorised.__init__ fs va = Err e -> e = IndexError.
Proof.
  rewrite init_cases. destruct fs as [|first rest]; [congruence|].
  destruct (forallb _ _); congruence.
Qed.

Lemma marginal_Ok_inv (d d' : Factorised.t) (idx : list Z) :
  Factorised.marginal d idx = Ok d' ->
  exists picked,
    Forall2 (fun i f => getitem (Factorised.factors d) i = Ok f) idx picked
    /\ Factorised.__init__ picked (Some (Factorised._validate_args d)) = Ok d'.
Proof.
  unfold Factorised.marginal. intros Hm. apply bind_Ok in Hm.
  destruct Hm as (picked & Hp & Hd'). exists picked.
  split; [now apply comprehension_Ok_iff | exact Hd'].
Qed.

End Returns.

(** X1. The constructor returns exactly for a non-empty factor sequence in
    which every factor has a non-empty event shape; every other call raises
    IndexError.  The batch shape is the first factor's, whatever the batch
    shapes of the others. *)
Theorem init_returns_iff `{TorchEnv} (fs : list Distribution.t)
  (va : option bool) :
  ((exists d, Factorised.__init__ fs va = Ok d) <->
   fs <> [] /\ Forall (fun f => Distribution.event_shape f <> []) fs)
  /\ (forall e, Factorised.__init__ fs va = Err e -> e = IndexError)
  /\ (forall d first rest,
        Factorised.__init__ fs va = Ok d -> fs = first :: rest ->
        Factorised.factors d = fs
        /\ Factorised.batch_shape d = Distribution.batch_shape first).
Proof.
  split; [|split].
  - split.
    + intros [d Hd]. apply init_Ok in Hd. tauto.
    + intros [Hne Hall]. now apply init_succeeds.
  - apply init_Err.
  - intros d first rest Hd ->. apply init_Ok in Hd.
    destruct Hd as (_ & _ & Hf & _ & Hb & _). auto.
Qed.

(** X2. On a constructed distribution [marginal] returns exactly for a
    non-empty sequence of indices in [-n, n); every other call raises
    IndexError. *)
Theorem marginal_returns_iff `{TorchEnv} (fs : list Distribution.t)
  (va : option bool) (d : Factorised.t) (idx : list Z) :
  Factorised.__init__ fs va = Ok d ->
  ((exists d', Factorised.marginal d idx = Ok d') <->
   idx <> [] /\ Forall (in_range (length (Factorised.factors d))) idx)
  /\ (forall e, Factorised.marginal d idx = Err e -> e = IndexError).
Proof.
  intros Hd. apply init_Ok in Hd. destruct Hd as (_ & Hev & Hf & _).
  split; [split|].
  - intros [d' Hm]. apply marginal_Ok_inv in Hm.
    destruct Hm as (picked & Hall & Hd').
    apply init_Ok in Hd'. destruct Hd' as (Hpne & _).
    split.
    + intros ->. inversion Hall. congruence.
    + clear Hpne. induction Hall as [|i f idx picked Hi Hall IH];
        constructor; [|exact IH].
      now apply getitem_Ok_inv in Hi.
  - intros [Hne Hidx].
    destruct (@pick_in_range _ (Factorised.factors d) idx Hidx)
      as (picked & Hpicked & Hall).
    unfold Factorised.marginal. rewrite Hpicked. cbn [bind].
    apply init_succeeds.
    + intros ->. inversion Hall. congruence.
    + pose proof (@picked_from _ _ _ _ Hall) as Hin.
      rewrite Forall_forall in *. intros f Hfp. apply Hev.
      rewrite <- Hf. now apply Hin.
  - intros e. unfold Factorised.marginal.
    destruct (comprehension _ idx) as [picked|e1] eqn:Hp; cbn [bind].
    + apply init_Err.
    + intros He. injection He as <-.
      apply (comprehension_Err _ _ (E:=IndexError)) in Hp; [exact Hp|].
      intros x e'. apply getitem_Err.
Qed.

Lemma marginal_returns_iff_witness :
  Factorised.__init__ [Demo.dist1; Demo.dist2] None = Ok Demo.fact
  /\ ((exists d', Factorised.marginal Demo.fact [2]%Z = Ok d') <->
      [2]%Z <> []
      /\ Forall (in_range (length (Factorised.factors Demo.fact))) [2]%Z).
Proof.
  split; [reflexivity|].
  exact (proj1 (@marginal_returns_iff Demo.env [Demo.dist1; Demo.dist2] None
                  Demo.fact [2]%Z eq_refl)).
Defined.

(** ** Marginals of marginals *)

Lemma getitem_Forall2 {S T : Type} (P : S -> T -> Prop) (l1 : list S)
  (l2 : list T) (j : Z) (a : S) :
  Forall2 P l1 l2 -> getitem l1 j = Ok a ->
  exists b, getitem l2 j = Ok b /\ P a b.
Proof.
  intros Hall Ha. apply getitem_Ok_inv in Ha. destruct Ha as [Hr Hn].
  pose proof (Forall2_length Hall) as Hlen.
  destruct (@Forall2_nth_error_l _ _ _ _ _ _ _ Hall Hn) as (b & Hb & Hab).
  rewrite Hlen in Hr, Hb.
  destruct (@getitem_norm _ l2 j Hr) as (x & Hx & Hget).
  exists b. split; [congruence | exact Hab].
Qed.

Lemma comprehension_through {T : Type} (fs : list T) (idx1 : list Z)
  (picked : list T) (idx2 idx12 : list Z) :
  Forall2 (fun i f => getitem fs i = Ok f) idx1 picked ->
  Forall2 (fun j i => getitem idx1 j = Ok i) idx2 idx12 ->
  comprehension (getitem picked) idx2 = comprehension (getitem fs) idx12.
Proof.
  intros Hp H12. induction H12 as [|j i idx2 idx12 Hj H12 IH]; [reflexivity|].
  simpl. destruct (@getitem_Forall2 _ _ _ _ _ _ _ Hp Hj) as (f & Hf & Hfs).
  now rewrite Hf, Hfs, IH.
Qed.

Section MarginalAlgebra.
Context `{TorchEnv}.

Lemma init_validate_args (fs : list Distribution.t) (b : bool)
  (d : Factorised.t) :
  Factorised.__init__ fs (Some b) = Ok d -> Factorised._validate_args d = b.
Proof.
  rewrite init_cases. destruct fs as [|first rest]; [discriminate|].
  destruct (forallb _ _); [|discriminate].
  intros Hd. injection Hd as <-. reflexivity.
Qed.

Lemma init_again (fs : list Distribution.t) (va : option bool)
  (d : Factorised.t) :
  Factorised.__init__ fs va = Ok d ->
  Factorised.__init__ fs (Some (Factorised._validate_args d)) = Ok d.
Proof.
  rewrite !init_cases. destruct fs as [|first rest]; [discriminate|].
  destruct (forallb _ _); [|discriminate].
  intros Hd. injection Hd as <-. reflexivity.
Qed.

End MarginalAlgebra.

(** X3. Taking a marginal of a marginal is taking one marginal with the
    indices composed: [d.marginal(a).marginal(b)] is
    [d.marginal([a[j] for j in b])]. *)
Theorem marginal_of_marginal `{TorchEnv} (d d1 : Factorised.t)
  (idx1 idx2 idx12 : list Z) :
  Factorised.marginal d idx1 = Ok d1 ->
  comprehension (getitem idx1) idx2 = Ok idx12 ->
  Factorised.marginal d1 idx2 = Factorised.marginal d idx12.
Proof.
  intros Hm H12. apply marginal_Ok_inv in Hm.
  destruct Hm as (picked & Hp & Hd1).
  pose proof (@init_validate_args _ _ _ _ Hd1) as Hva.
  apply init_Ok in Hd1. destruct Hd1 as (_ & _ & Hf & _).
  apply comprehension_Ok_iff in H12.
  unfold Factorised.marginal. rewrite Hf, Hva.
  now rewrite (@comprehension_through _ _ _ _ _ _ Hp H12).
Qed.

Lemma marginal_of_marginal_witness :
  Factorised.marginal Demo.fact [1; 0; 1]%Z
  = Ok DemoStats.second_first_second
  /\ comprehension (getitem [1; 0; 1]%Z) [-1; 1]%Z = Ok [1; 0]%Z
  /\ Factorised.marginal DemoStats.second_first_second [-1; 1]%Z
     = Factorised.marginal Demo.fact [1; 0]%Z.
Proof.
  split; [reflexivity|]. split; [reflexivity|].
  exact (@marginal_of_marginal Demo.env Demo.fact
           DemoStats.second_first_second [1; 0; 1]%Z [-1; 1]%Z [1; 0]%Z
           eq_refl eq_refl).
Defined.

(** X4. Selecting every factor in order gives the distribution back:
    [d.marginal(range(len(d.factors)))] has the fields of [d]. *)
Theorem marginal_of_all_indices `{TorchEnv} (fs : list Distribution.t)
  (va : option bool) (d : Factorised.t) :
  Factorised.__init__ fs va = Ok d ->
  Factorised.marginal d
    (map Z.of_nat (seq 0 (length (Factorised.factors d)))) = Ok d.
Proof.
  intros Hd. pose proof (@init_again _ _ _ _ Hd) as Hagain.
  apply init_Ok in Hd. destruct Hd as (_ & _ & Hf & _).
  unfold Factorised.marginal.
  pose proof (comprehension_getitem_seq [] fs) as Hall.
  cbn [app length] in Hall.
  rewrite Hf, Hall. exact Hagain.
Qed.

Lemma marginal_of_all_indices_witness :
  Factorised.__init__ [Demo.dist1; Demo.dist2] None = Ok Demo.fact
  /\ Factorised.marginal Demo.fact [0; 1]%Z = Ok Demo.fact.
Proof.
  split; [reflexivity|].
  exact (@marginal_of_all_indices Demo.env [Demo.dist1; Demo.dist2] None
           Demo.fact eq_refl).
Defined.

(** ** The marginal on one factor *)

Lemma bind_ret {T : Type} (c : result T) : (x <- c ;; Ok x) = c.
Proof. now destruct c. Qed.

Lemma map_firstn_rows {A : Type} (w : nat) (rows : list (list A)) :
  (forall r, In r rows -> length r = w) -> map (firstn w) rows = rows.
Proof.
  intros Hrows. rewrite <- (map_id rows) at 2. apply map_ext_in.
  intros r Hr. apply firstn_all2. rewrite (Hrows r Hr). lia.
Qed.

(** X5. The marginal on the single index [i] behaves as the factor
    [d.factors[i]] on a value of that factor's width: its log-density is
    [0 + factor.log_prob(value)], its support check the factor's own. *)
Theorem marginal_single_is_factor `{TorchEnv} (fs : list Distribution.t)
  (va : option bool) (d : Factorised.t) (i : Z) (f : Distribution.t) :
  Factorised.__init__ fs va = Ok d ->
  getitem (Factorised.factors d) i = Ok f ->
  exists d',
    Factorised.marginal d [i] = Ok d'
    /\ Factorised.factors d' = [f]
    /\ forall lead rows,
         wf_tensor (TN lead (event_width f) rows) = true ->
         Factorised.log_prob d' (TN lead (event_width f) rows)
         = (x <- Distribution.log_prob f (TN lead (event_width f) rows) ;;
            py_add py_zero x)
         /\ support_check d' (TN lead (event_width f) rows)
            = own_check f (TN lead (event_width f) rows).
Proof.
  intros Hd Hi. apply init_Ok in Hd. destruct Hd as (_ & Hev & Hf & _).
  assert (Hfe : Distribution.event_shape f <> []).
  { rewrite Forall_forall in Hev. apply Hev. rewrite <- Hf.
    now apply getitem_In in Hi. }
  destruct (@init_succeeds _ [f] (Some (Factorised._validate_args d)))
    as [d' Hd']; [discriminate | now constructor |].
  exists d'. pose proof (@init_Ok _ _ _ _ Hd') as (_ & _ & Hf' & Hn' & _).
  split; [|split].
  - unfold Factorised.marginal. simpl. rewrite Hi. exact Hd'.
  - exact Hf'.
  - intros lead rows Hwf.
    pose proof (@wf_rows _ _ _ _ Hwf) as [_ Hrows].
    assert (Hpart : slice_to (event_width f) (TN lead (event_width f) rows)
                    = Ok (TN lead (event_width f) rows)).
    { simpl. now rewrite Nat.min_id, map_firstn_rows. }
    split.
    + unfold Factorised.log_prob, Factorised.partition_dimensions, py_sum.
      rewrite Hf', Hn'. cbn [map _iterate_parts]. rewrite Hpart.
      cbn [zip sum_from fst snd].
      destruct (Distribution.log_prob f _) as [x|e]; [|reflexivity].
      cbn [bind]. apply bind_ret.
    + unfold support_check, Factorised.support, own_check.
      rewrite Hf', Hn'. cbn [comprehension].
      destruct (Distribution.support f) as [c|e]; [|reflexivity].
      cbn [bind]. unfold _FactorisedSupport.check.
      cbn [_FactorisedSupport.supports _FactorisedSupport.ndims map
           _iterate_parts].
      rewrite Hpart. cbn [zip py_all fst snd].
      destruct (Constraint.check c _) as [b|e]; [|reflexivity].
      cbn [bind]. destruct (tensor_bool b) as [[|]|e]; reflexivity.
Qed.

Lemma marginal_single_is_factor_witness :
  Factorised.__init__ [Demo.dist1; Demo.dist2] None = Ok Demo.fact
  /\ getitem (Factorised.factors Demo.fact) (-1)%Z = Ok Demo.dist2
  /\ exists d',
       Factorised.marginal Demo.fact [-1]%Z = Ok d'
       /\ Factorised.factors d' = [Demo.dist2]
       /\ forall lead rows,
            wf_tensor (TN lead (event_width Demo.dist2) rows) = true ->
            Factorised.log_prob d' (TN lead (event_width Demo.dist2) rows)
            = (x <- Distribution.log_prob Demo.dist2
                      (TN lead (event_width Demo.dist2) rows) ;;
               py_add py_zero x)
            /\ support_check d' (TN lead (event_width Demo.dist2) rows)
               = own_check Demo.dist2
                   (TN lead (event_width Demo.dist2) rows).
Proof.
  split; [reflexivity|]. split; [reflexivity|].
  exact (@marginal_single_is_factor Demo.env [Demo.dist1; Demo.dist2] None
           Demo.fact (-1)%Z Demo.dist2 eq_refl eq_refl).
Defined.

(** X6. [has_rsample] is true exactly when some factor is reparameterised,
    and a marginal is reparameterised only if the distribution it was taken
    from is. *)
Theorem has_rsample_of_marginal `{TorchEnv} (d d' : Factorised.t)
  (idx : list Z) :
  Factorised.marginal d idx = Ok d' ->
  (Factorised.has_rsample d = true <->
   exists f, In f (Factorised.factors d) /\ Distribution.has_rsample f = true)
  /\ (Factorised.has_rsample d' = true -> Factorised.has_rsample d = true).
Proof.
  intros Hm. split; [apply existsb_exists|].
  intros Hr. apply marginal_Ok_inv in Hm.
  destruct Hm as (picked & Hp & Hd').
  apply init_Ok in Hd'. destruct Hd' as (_ & _ & Hf' & _).
  unfold Factorised.has_rsample in *. rewrite Hf' in Hr.
  apply existsb_exists in Hr. destruct Hr as (f & Hin & Hf).
  apply existsb_exists. exists f. split; [|exact Hf].
  clear Hf Hf'. induction Hp as [|i g idx picked Hi Hp IH]; [contradiction|].
  destruct Hin as [<-|Hin]; [now apply getitem_In in Hi | now apply IH].
Qed.

Lemma has_rsample_of_marginal_witness :
  Factorised.marginal Demo.fact [1]%Z = Ok DemoStats.only_second
  /\ (Factorised.has_rsample DemoStats.only_second = true ->
      Factorised.has_rsample Demo.fact = true).
Proof.
  split; [reflexivity|].
  exact (proj2 (@has_rsample_of_marginal Demo.env Demo.fact
                  DemoStats.only_second [1]%Z eq_refl)).
Defined.

(** ** More on the support check *)

Lemma py_all_first_false {T : Type} (c : T -> result (tensor bool))
  (l : list T) (i : nat) (x : T) :
  nth_error l i = Some x ->
  (t <- c x ;; tensor_bool t) = Ok false ->
  (forall j y, j < i -> nth_error l j = Some y ->
               (t <- c y ;; tensor_bool t) = Ok true) ->
  py_all c (iter l) = Ok false.
Proof.
  revert i. induction l as [|y l IH]; intros [|i] Hx Hfalse Hpre;
    simpl in Hx; try discriminate.
  - injection Hx as ->. simpl.
    destruct (c x) as [t|e]; simpl in *; [|discriminate].
    now rewrite Hfalse.
  - simpl. pose proof (Hpre 0 y ltac:(lia) eq_refl) as Hy.
    destruct (c y) as [t|e]; simpl in *; [|discriminate].
    rewrite Hy. simpl. apply (IH i Hx Hfalse).
    intros j z Hj Hz. apply (Hpre (S j) z); [lia | exact Hz].
Qed.

Lemma comprehension_first_Err {S T : Type} (f : S -> result T)
  (xs1 xs2 : list S) (x : S) (e : exn) :
  Forall (fun y => is_ok (f y) = true) xs1 ->
  f x = Err e ->
  comprehension f (xs1 ++ x :: xs2) = Err e.
Proof.
  intros Hok Hx. induction Hok as [|y xs1 Hy Hok IH]; simpl.
  - now rewrite Hx.
  - destruct (f y) as [v|e1]; [|discriminate]. simpl. now rewrite IH.
Qed.

Lemma zip_parts_shorter {S A : Type} (xs : list S) (ns : list nat)
  (v : tensor A) :
  let m := Nat.min (length xs) (length ns) in
  zip xs (_iterate_parts v ns)
  = zip (firstn m xs) (_iterate_parts v (firstn m ns)).
Proof.
  revert ns v. induction xs as [|x xs IH]; intros ns v; [reflexivity|].
  destruct ns as [|n ns]; [reflexivity|].
  destruct v as [a|lead w rows]; [reflexivity|].
  cbn [length Nat.min firstn _iterate_parts slice_to slice_from zip].
  f_equal. apply IH.
Qed.

(** X7. The support check stops at the first factor whose check is false:
    the result is False whatever the checks of the later factors would
    return or raise. *)
Theorem support_check_stops_at_false `{TorchEnv} (fs : list Distribution.t)
  (va : option bool) (d : Factorised.t) (lead : Size) (w : nat)
  (rows : list (list scalar)) (i : nat) :
  Factorised.__init__ fs va = Ok d ->
  Forall (fun f => is_ok (Distribution.support f) = true)
         (Factorised.factors d) ->
  i < length (Factorised.factors d) ->
  factor_check d (TN lead w rows) i = Ok false ->
  (forall j, j < i -> factor_check d (TN lead w rows) j = Ok true) ->
  support_check d (TN lead w rows) = Ok false.
Proof.
  intros Hd Hsup Hi Hfalse Hpre.
  pose proof (init_ndims_length _ _ Hd) as Hlen.
  destruct (comprehension_all_ok Distribution.support (Factorised.factors d))
    as [sups Hsups].
  { rewrite Forall_forall in Hsup. intros f Hin. specialize (Hsup f Hin).
    destruct (Distribution.support f) as [c|e]; [eauto | discriminate]. }
  unfold support_check, Factorised.support. rewrite Hsups. cbn [bind].
  apply comprehension_Ok_iff in Hsups.
  unfold _FactorisedSupport.check.
  cbn [_FactorisedSupport.supports _FactorisedSupport.ndims].
  fold (Factorised.partition_dimensions d (TN lead w rows)).
  rewrite (@partition_slices _ d lead w rows Hlen), zip_iter.
  assert (Hat : forall j, j < length (Factorised.factors d) ->
            exists c, nth_error sups j = Some c
                      /\ factor_check d (TN lead w rows) j
                         = (b <- Constraint.check c
                                   (slice_of (Factorised._ndims d) j
                                             (TN lead w rows)) ;;
                            tensor_bool b)).
  { intros j Hj.
    destruct (nth_error (Factorised.factors d) j) as [f|] eqn:Hf;
      [|apply nth_error_None in Hf; lia].
    destruct (@Forall2_nth_error_l _ _ _ _ _ _ _ Hsups Hf) as (c & Hc & Hfc).
    exists c. split; [exact Hc|]. now apply factor_check_at with (f := f). }
  destruct (Hat i Hi) as (ci & Hci & Hcheck).
  apply py_all_first_false
    with (i := i)
         (x := (ci, slice_of (Factorised._ndims d) i (TN lead w rows))).
  - apply zipped_slices. auto.
  - cbn [fst snd]. now rewrite <- Hcheck.
  - intros j [c p] Hj Hjp. apply zipped_slices in Hjp.
    destruct Hjp as (Hc & Hjn & ->). cbn [fst snd].
    destruct (Hat j Hjn) as (c' & Hc' & Hcheck').
    assert (c' = c) by congruence. subst c'.
    rewrite <- Hcheck'. now apply Hpre.
Qed.

Lemma support_check_stops_at_false_witness :
  Factorised.__init__ [Demo.dist1; Demo.dist2] None = Ok Demo.fact
  /\ factor_check Demo.fact DemoStats.negative7 0 = Ok false
  /\ support_check Demo.fact DemoStats.negative7 = Ok false.
Proof.
  split; [reflexivity|]. split; [reflexivity|].
  apply (@support_check_stops_at_false Demo.env [Demo.dist1; Demo.dist2] None
           Demo.fact [1] 7 [[-1; 2; 3; 4; 5; 6; 7]%Z] 0 eq_refl).
  - repeat constructor.
  - simpl. lia.
  - reflexivity.
  - intros j Hj. lia.
Defined.

(** X8. The [support] property asks every factor for its support before any
    value is looked at: when a factor's [support] raises, the support check
    raises that exception on every value, also when an earlier factor would
    have rejected the value. *)
Theorem support_property_raises_first `{TorchEnv} (d : Factorised.t)
  (fs1 fs2 : list Distribution.t) (f : Distribution.t) (e : exn) :
  Factorised.factors d = fs1 ++ f :: fs2 ->
  Forall (fun g => is_ok (Distribution.support g) = true) fs1 ->
  Distribution.support f = Err e ->
  Factorised.support d = Err e
  /\ forall v, support_check d v = Err e.
Proof.
  intros Hf Hok He.
  assert (Hs : Factorised.support d = Err e).
  { unfold Factorised.support.
    now rewrite Hf, (comprehension_first_Err _ _ _ Hok He). }
  split; [exact Hs|]. intros v. unfold support_check. now rewrite Hs.
Qed.

Lemma support_property_raises_first_witness :
  Factorised.factors DemoStats.half_supported
  = [Demo.dist1] ++ DemoStats.unsupported [5] 4 :: []
  /\ factor_check DemoStats.half_supported DemoStats.negative7 0 = Ok false
  /\ support_check DemoStats.half_supported DemoStats.negative7
     = Err NotImplementedError.
Proof.
  split; [reflexivity|]. split; [reflexivity|].
  apply (@support_property_raises_first Demo.env DemoStats.half_supported
           [Demo.dist1] [] (DemoStats.unsupported [5] 4) NotImplementedError
           eq_refl).
  - repeat constructor.
  - reflexivity.
Defined.

(** X9. [_FactorisedSupport.check] pairs supports and widths with [zip]:
    of two sequences of different lengths only the common prefix is used,
    the surplus supports or widths are ignored without an error. *)
Theorem check_uses_common_prefix `{TorchEnv} (supports : list Constraint.t)
  (ndims : list nat) (value : tensor scalar) :
  let m := Nat.min (length supports) (length ndims) in
  _FactorisedSupport.check
    (_FactorisedSupport.Build_t supports ndims) value
  = _FactorisedSupport.check
      (_FactorisedSupport.Build_t (firstn m supports) (firstn m ndims)) value.
Proof.
  intros m. unfold _FactorisedSupport.check.
  cbn [_FactorisedSupport.supports _FactorisedSupport.ndims].
  subst m. now rewrite zip_parts_shorter.
Qed.

(** X10. A zero-dimensional value has no trailing axis to slice: the
    generator raises IndexError at its first item, and so do [log_prob] and
    (when every factor has a support) the support check. *)
Theorem zero_dim_value_raises `{TorchEnv} (fs : list Distribution.t)
  (va : option bool) (d : Factorised.t) (x : scalar) :
  Factorised.__init__ fs va = Ok d ->
  Factorised.partition_dimensions d (T0 x) = Raise IndexError
  /\ Factorised.log_prob d (T0 x) = Err IndexError
  /\ (Forall (fun f => is_ok (Distribution.support f) = true)
             (Factorised.factors d) ->
      support_check d (T0 x) = Err IndexError).
Proof.
  intros Hd. pose proof (@log_prob_zero_dim _ fs va d x Hd) as Hlp.
  apply init_Ok in Hd. destruct Hd as (Hne & _ & Hf & Hn & _).
  destruct fs as [|f fs]; [congruence|].
  split; [|split].
  - unfold Factorised.partition_dimensions. now rewrite Hn.
  - exact Hlp.
  - intros Hsup. rewrite Hf in Hsup.
    destruct (comprehension_all_ok Distribution.support (f :: fs))
      as [sups Hsups].
    { rewrite Forall_forall in Hsup. intros g Hin. specialize (Hsup g Hin).
      destruct (Distribution.support g) as [c|e]; [eauto | discriminate]. }
    unfold support_check, Factorised.support. rewrite Hf, Hsups. cbn [bind].
    apply comprehension_Ok_iff in Hsups.
    inversion Hsups as [|? c ? sups' _ _]; subst.
    unfold _FactorisedSupport.check.
    cbn [_FactorisedSupport.supports _FactorisedSupport.ndims].
    now rewrite Hn.
Qed.

Lemma zero_dim_value_raises_witness :
  Factorised.__init__ [Demo.dist1; Demo.dist2] None = Ok Demo.fact
  /\ Factorised.log_prob Demo.fact (T0 1%Z) = Err IndexError
  /\ support_check Demo.fact (T0 1%Z) = Err IndexError.
Proof.
  split; [reflexivity|].
  pose proof (@zero_dim_value_raises Demo.env [Demo.dist1; Demo.dist2] None
                Demo.fact 1%Z eq_refl) as (_ & Hlp & Hsc).
  split; [exact Hlp|]. apply Hsc. repeat constructor.
Defined.

(** ** Slices and concatenation, both ways *)

Lemma cat_layout {A : Type} (L : Size) (xs : list (tensor A)) :
  xs <> [] -> Forall (has_lead L) xs ->
  exists x,
    cat xs = Ok x
    /\ shape x = L ++ [list_sum (map trailing xs)]
    /\ wf_tensor x = true
    /\ _iterate_parts x (map trailing xs) = iter xs.
Proof.
  intros Hne Hall.
  exists (TN L (list_sum (map trailing xs)) (join_rows (numel L) xs)).
  split; [now apply cat_has_lead|]. split; [reflexivity|].
  split; [now apply joined_wf|].
  rewrite iterate_parts_windows. f_equal. now apply windows_of_joined.
Qed.

Lemma clamped_widths_sum (w : nat) (ns : list nat) (a : nat) :
  list_sum (map (fun i => Nat.min (a + offset ns i + nth i ns 0) w
                          - (a + offset ns i))
                (seq 0 (length ns)))
  = Nat.min (a + list_sum ns) w - Nat.min a w.
Proof.
  revert a. induction ns as [|n ns IH]; intros a.
  - simpl. rewrite Nat.add_0_r. lia.
  - cbn [length seq map]. rewrite <- seq_shift, map_map.
    rewrite (map_ext _ (fun i => Nat.min ((a + n) + offset ns i + nth i ns 0) w
                                 - ((a + n) + offset ns i))).
    + change (list_sum (?x :: ?l)) with (x + list_sum l).
      rewrite IH. unfold offset. cbn [firstn nth].
      change (list_sum (@nil nat)) with 0.
      change (list_sum (n :: ns)) with (n + list_sum ns). lia.
    + intros i. rewrite offset_cons. cbn [nth].
      replace (a + (n + offset ns i)) with (a + n + offset ns i) by lia.
      reflexivity.
Qed.

Section AnyWidth.
Variable A : Type.
Variables (lead : Size) (w : nat) (rows : list (list A)).
Hypothesis Hwf : wf_tensor (TN lead w rows) = true.

Lemma windows_trailing_sum (ns : list nat) :
  list_sum (map trailing (windows ns (TN lead w rows)))
  = Nat.min (list_sum ns) w.
Proof.
  unfold windows. rewrite map_map. cbn [window trailing].
  pose proof (clamped_widths_sum w ns 0) as Hs. cbn [Nat.add] in Hs.
  rewrite Hs. lia.
Qed.

Lemma windows_join (ns : list nat) :
  join_rows (numel lead) (windows ns (TN lead w rows))
  = map (fun r => skipn 0 (firstn (list_sum ns) r)) rows.
Proof.
  destruct (@wf_rows _ _ _ _ Hwf) as [Hlen _]. unfold join_rows, windows.
  rewrite <- Hlen.
  transitivity (map (fun j => skipn 0 (firstn (list_sum ns) (nth j rows [])))
                    (seq 0 (length rows))).
  2: { rewrite <- (map_map (fun j => nth j rows [])
                           (fun r => skipn 0 (firstn (list_sum ns) r))).
       now rewrite map_nth_seq. }
  apply map_ext_in. intros j Hj. apply in_seq in Hj.
  rewrite map_map. cbn [window rows_of].
  rewrite (map_ext _ (fun i => skipn (0 + offset ns i)
                      (firstn (0 + offset ns i + nth i ns 0) (nth j rows [])))).
  - apply concat_windows_from.
  - intros i. cbn [Nat.add].
    rewrite (nth_map_in _ rows [] []) by lia. reflexivity.
Qed.

Lemma cat_windows (ns : list nat) :
  ns <> [] ->
  cat (windows ns (TN lead w rows))
  = Ok (window 0 (list_sum ns) (TN lead w rows)).
Proof.
  intros Hne. rewrite (@cat_has_lead _ lead).
  - rewrite windows_trailing_sum, windows_join. cbn [window].
    now rewrite Nat.sub_0_r.
  - unfold windows. destruct ns; [congruence | discriminate].
  - now apply parts_have_lead.
Qed.

Lemma window_whole (W : nat) :
  w <= W -> window 0 W (TN lead w rows) = TN lead w rows.
Proof.
  intros HW. destruct (@wf_rows _ _ _ _ Hwf) as [_ Hrows]. cbn [window].
  f_equal; [lia|].
  rewrite <- (map_id rows) at 2. apply map_ext_in. intros r Hr.
  cbn [skipn]. apply firstn_all2. rewrite (Hrows r Hr). lia.
Qed.

End AnyWidth.

(** X11. The generator undoes [torch.cat]: for well-formed tensors that
    share their leading shape, slicing their concatenation with their
    trailing sizes as widths yields the tensors back, in order. *)
Theorem parts_of_cat {A : Type} (L : Size) (xs : list (tensor A)) :
  xs <> [] -> Forall (has_lead L) xs ->
  exists x,
    cat xs = Ok x
    /\ shape x = L ++ [list_sum (map trailing xs)]
    /\ wf_tensor x = true
    /\ _iterate_parts x (map trailing xs) = iter xs.
Proof. apply cat_layout. Qed.

Lemma parts_of_cat_witness :
  [DemoStats.piece3; DemoStats.piece4] <> []
  /\ exists x,
       cat [DemoStats.piece3; DemoStats.piece4] = Ok x
       /\ shape x = [2] ++ [list_sum (map trailing
                                        [DemoStats.piece3; DemoStats.piece4])]
       /\ wf_tensor x = true
       /\ _iterate_parts x (map trailing [DemoStats.piece3; DemoStats.piece4])
          = iter [DemoStats.piece3; DemoStats.piece4].
Proof.
  split; [intros Hnil; discriminate Hnil|].
  apply (@parts_of_cat Z [2] [DemoStats.piece3; DemoStats.piece4]).
  - intros Hnil; discriminate Hnil.
  - repeat (constructor;
            [split; [reflexivity | do 2 eexists; reflexivity]|]).
    constructor.
Defined.

(** X12. Whatever the trailing size of a well-formed value, concatenating
    the slices [partition_dimensions] yields gives the prefix of the value
    of the summed width: the whole value when it is not wider than that. *)
Theorem partition_concatenates_to_prefix `{TorchEnv}
  (fs : list Distribution.t) (va : option bool) (d : Factorised.t)
  (lead : Size) (w : nat) (rows : list (list scalar)) :
  Factorised.__init__ fs va = Ok d ->
  wf_tensor (TN lead w rows) = true ->
  let v := TN lead w rows in
  let nd := Factorised._ndims d in
  exists parts,
    Factorised.partition_dimensions d v = iter parts
    /\ cat parts = Ok (window 0 (list_sum nd) v)
    /\ (w <= list_sum nd -> cat parts = Ok v).
Proof.
  intros Hd Hwf v nd. exists (windows nd v).
  apply init_Ok in Hd. destruct Hd as (Hne & _ & _ & Hn & _).
  assert (Hns : nd <> []).
  { subst nd. rewrite Hn. destruct fs; [congruence | discriminate]. }
  pose proof (@cat_windows _ lead w rows Hwf nd Hns) as Hcat.
  split; [|split].
  - unfold Factorised.partition_dimensions. apply iterate_parts_windows.
  - exact Hcat.
  - intros Hw. fold v in Hcat. rewrite Hcat. subst v.
    now rewrite (@window_whole _ lead w rows Hwf).
Qed.

Lemma partition_concatenates_to_prefix_witness :
  Factorised.__init__ [Demo.dist1; Demo.dist2] None = Ok Demo.fact
  /\ wf_tensor Demo.value8 = true
  /\ exists parts,
       Factorised.partition_dimensions Demo.fact Demo.value8 = iter parts
       /\ cat parts = Ok (window 0 7 Demo.value8).
Proof.
  split; [reflexivity|]. split; [reflexivity|].
  destruct (@partition_concatenates_to_prefix Demo.env
              [Demo.dist1; Demo.dist2] None Demo.fact
              [1] 8 [[1; 2; 3; 4; 5; 6; 7; 8]%Z] eq_refl eq_refl)
    as (parts & Hparts & Hcat & _).
  exists parts. split; [exact Hparts | exact Hcat].
Defined.

(** ** A value assembled from per-factor pieces *)

Lemma Forall2_of_nth {U T : Type} (P : U -> T -> Prop) (l1 : list U)
  (l2 : list T) :
  length l1 = length l2 ->
  (forall i a b, nth_error l1 i = Some a -> nth_error l2 i = Some b -> P a b) ->
  Forall2 P l1 l2.
Proof.
  revert l2. induction l1 as [|a l1 IH]; intros [|b l2] Hlen Hp;
    simpl in Hlen; try discriminate; constructor.
  - apply (Hp 0); reflexivity.
  - apply IH; [lia|]. intros i a' b' Ha Hb. apply (Hp (S i)); assumption.
Qed.

Lemma Forall2_with_Forall {S T : Type} (Q : S -> Prop) (P : S -> T -> Prop)
  (l1 : list S) (l2 : list T) :
  Forall Q l1 -> Forall2 P l1 l2 -> Forall2 (fun a b => Q a /\ P a b) l1 l2.
Proof.
  intros HQ HP. induction HP as [|a b l1 l2 Hab HP IH]; constructor.
  - inversion HQ; auto.
  - apply IH. now inversion HQ.
Qed.

Section Pieces.
Context `{TorchEnv}.

Lemma pieces_have_lead (L : Size) (fs : list Distribution.t)
  (xs : list (tensor scalar)) :
  Forall (fun f => length (Distribution.event_shape f) = 1) fs ->
  Forall2 (fun f x => wf_tensor x = true
                      /\ shape x = L ++ Distribution.event_shape f) fs xs ->
  Forall (has_lead L) xs /\ map trailing xs = map event_width fs.
Proof.
  intros Hev Hall. induction Hall as [|f x fs xs [Hwf Hs] Hall IH].
  - split; [constructor | reflexivity].
  - inversion Hev as [|? ? Hlen Hev']; subst.
    destruct (IH Hev') as [IHl IHw].
    assert (Hn : exists n, Distribution.event_shape f = [n]).
    { destruct (Distribution.event_shape f) as [|n [|m es]];
        try discriminate Hlen. eauto. }
    destruct Hn as [n Hn]. rewrite Hn in Hs.
    assert (Hfw : event_width f = n) by (unfold event_width; now rewrite Hn).
    destruct (@shape_trailing_inv _ L n x Hwf Hs) as [Hlead Htr].
    split; [now constructor|]. cbn [map]. now rewrite Htr, IHw, Hfw.
Qed.

Lemma layout_of_pieces (fs : list Distribution.t) (va : option bool)
  (d : Factorised.t) (L : Size) (xs : list (tensor scalar)) :
  Factorised.__init__ fs va = Ok d ->
  Forall (fun f => length (Distribution.event_shape f) = 1) fs ->
  Forall2 (fun f x => wf_tensor x = true
                      /\ shape x = L ++ Distribution.event_shape f) fs xs ->
  exists x,
    cat xs = Ok x
    /\ shape x = L ++ Factorised.event_shape d
    /\ wf_tensor x = true
    /\ Factorised.partition_dimensions d x = iter xs.
Proof.
  intros Hd Hev Hall. apply init_Ok in Hd.
  destruct Hd as (Hne & _ & _ & Hn & _ & He).
  destruct (@pieces_have_lead L fs xs Hev Hall) as [Hlead Hw].
  assert (Hxne : xs <> []).
  { intros ->. inversion Hall. congruence. }
  destruct (@cat_layout _ L xs Hxne Hlead)
    as (x & Hcat & Hshape & Hwf & Hparts).
  exists x. repeat split; try assumption.
  - now rewrite Hshape, He, Hw.
  - unfold Factorised.partition_dimensions. now rewrite Hn, <- Hw.
Qed.

Lemma draw_declared (sample_shape : Size) (fs : list Distribution.t) :
  Forall (samples_as_declared sample_shape) fs ->
  forall g, exists xs g',
    Factorised.draw fs sample_shape g = Ok (xs, g')
    /\ Forall2 (fun f x =>
                  wf_tensor x = true
                  /\ shape x = sample_shape ++ Distribution.batch_shape f
                                            ++ Distribution.event_shape f)
               fs xs.
Proof.
  intros Hfs. induction Hfs as [|f fs Hf Hfs IH]; intros g; simpl.
  - exists [], g. split; [reflexivity | constructor].
  - destruct (Hf g) as (x & g1 & Hx & Hwf & Hs). rewrite Hx. simpl.
    destruct (IH g1) as (xs & g2 & Hxs & Hall). rewrite Hxs. simpl.
    exists (x :: xs), g2. split; [reflexivity|]. now constructor.
Qed.

Lemma support_check_on_parts (d : Factorised.t) (v : tensor scalar)
  (xs : list (tensor scalar)) :
  Factorised.partition_dimensions d v = iter xs ->
  length xs = length (Factorised.factors d) ->
  support_check d v = Ok true <->
  Forall2 (fun f x => own_check f x = Ok true) (Factorised.factors d) xs.
Proof.
  intros Hparts Hlen. unfold support_check, Factorised.support. split.
  - intros Hs. apply bind_Ok in Hs. destruct Hs as (s & Hs & Hcheck).
    apply bind_Ok in Hs. destruct Hs as (sups & Hsups & Hs).
    injection Hs as <-. apply comprehension_Ok_iff in Hsups.
    unfold _FactorisedSupport.check in Hcheck.
    cbn [_FactorisedSupport.supports _FactorisedSupport.ndims] in Hcheck.
    fold (Factorised.partition_dimensions d v) in Hcheck.
    rewrite Hparts, zip_iter in Hcheck.
    apply Forall2_of_nth; [lia|]. intros i f x Hf Hx.
    destruct (@Forall2_nth_error_l _ _ _ _ _ _ _ Hsups Hf) as (c & Hc & Hfc).
    unfold own_check. rewrite Hfc. cbn [bind].
    apply (proj1 (py_all_true_iff _ _) Hcheck i (c, x)).
    apply nth_error_combine. auto.
  - intros Hall.
    destruct (comprehension_all_ok Distribution.support (Factorised.factors d))
      as [sups Hsups].
    { intros f Hin. apply In_nth_error in Hin. destruct Hin as [i Hf].
      destruct (@Forall2_nth_error_l _ _ _ _ _ _ _ Hall Hf) as (x & _ & Hown).
      unfold own_check in Hown.
      destruct (Distribution.support f) as [c|e]; [eauto | discriminate]. }
    rewrite Hsups. cbn [bind]. apply comprehension_Ok_iff in Hsups.
    unfold _FactorisedSupport.check.
    cbn [_FactorisedSupport.supports _FactorisedSupport.ndims].
    fold (Factorised.partition_dimensions d v).
    rewrite Hparts, zip_iter. apply py_all_true_iff.
    intros i [c x] Hi. apply nth_error_combine in Hi. destruct Hi as [Hc Hx].
    cbn [fst snd].
    destruct (nth_error (Factorised.factors d) i) as [f|] eqn:Hf.
    + destruct (@Forall2_nth_error_l _ _ _ _ _ _ _ Hsups Hf)
        as (c' & Hc' & Hfc).
      destruct (@Forall2_nth_error_l _ _ _ _ _ _ _ Hall Hf)
        as (x' & Hx' & Hown).
      assert (c' = c) by congruence. assert (x' = x) by congruence.
      subst c' x'. unfold own_check in Hown. now rewrite Hfc in Hown.
    + apply nth_error_None in Hf.
      assert (i < length xs) by (apply nth_error_Some; congruence). lia.
Qed.

End Pieces.

(** X13. A value that [rsample] returns is laid out as [log_prob] and the
    support check read it: its log-density is the sum
    [((0 + l0) + l1) + ...] of each factor's log-density on that factor's
    own draw, and the support check returns true on it exactly when each
    factor's check on its own draw answers with the single value true
    (factors with a shared batch shape and a one-dimensional event, sampling
    as declared). *)
Theorem log_prob_of_own_sample `{TorchEnv} (fs : list Distribution.t)
  (va : option bool) (d : Factorised.t) (sample_shape : Size) (g : rng) :
  Factorised.__init__ fs va = Ok d ->
  Forall (fun f => Distribution.batch_shape f = Factorised.batch_shape d) fs ->
  Forall (fun f => length (Distribution.event_shape f) = 1) fs ->
  Forall (samples_as_declared sample_shape) fs ->
  exists xs x g',
    Factorised.draw (Factorised.factors d) sample_shape g = Ok (xs, g')
    /\ Factorised.rsample d sample_shape g = Ok (x, g')
    /\ Factorised.log_prob d x
       = sum_spec (map (fun fx => Distribution.log_prob (fst fx) (snd fx))
                       (combine (Factorised.factors d) xs))
    /\ (support_check d x = Ok true <->
        Forall2 (fun f xi =>
                   exists t, own_verdict f xi = Ok t /\ elements t = [true])
                (Factorised.factors d) xs).
Proof.
  intros Hd Hbatch Hev Hsample.
  destruct (@draw_declared _ sample_shape fs Hsample g)
    as (xs & g' & Hxs & Hall).
  assert (Hall' : Forall2 (fun f x =>
                    wf_tensor x = true
                    /\ shape x = (sample_shape ++ Factorised.batch_shape d)
                                 ++ Distribution.event_shape f) fs xs).
  { apply (@Forall2_with_Forall _ _ _ _ _ _ Hbatch) in Hall.
    eapply Forall2_impl; [|exact Hall].
    intros f x [Hb [Hwf Hs]]. split; [exact Hwf|].
    now rewrite Hs, Hb, app_assoc. }
  destruct (@layout_of_pieces _ fs va d _ xs Hd Hev Hall')
    as (x & Hcat & _ & _ & Hparts).
  pose proof (Forall2_length Hall) as Hlen.
  apply init_Ok in Hd. destruct Hd as (_ & _ & Hf & _).
  exists xs, x, g'. rewrite Hf. split; [exact Hxs|]. split; [|split].
  - unfold Factorised.rsample. rewrite Hf, Hxs. cbn [bind fst snd].
    now rewrite Hcat.
  - unfold Factorised.log_prob.
    rewrite Hparts, zip_iter, Hf. apply py_sum_written.
  - rewrite <- Hf.
    rewrite (@support_check_on_parts _ d x xs Hparts)
      by (rewrite Hf; lia).
    split; intros HF; (eapply Forall2_impl; [|exact HF]); intros f xi Hfx;
      cbv beta in *.
    + rewrite own_check_verdict in Hfx. now apply single_true_verdict.
    + rewrite own_check_verdict. now apply single_true_verdict.
Qed.

Lemma log_prob_of_own_sample_witness :
  Factorised.__init__ [Demo.dist1; Demo.dist2] None = Ok Demo.fact
  /\ exists xs x g',
       Factorised.draw (Factorised.factors Demo.fact) [2] 0 = Ok (xs, g')
       /\ Factorised.rsample Demo.fact [2] 0 = Ok (x, g')
       /\ Factorised.log_prob Demo.fact x
          = sum_spec (map (fun fx => Distribution.log_prob (fst fx) (snd fx))
                          (combine (Factorised.factors Demo.fact) xs))
       /\ Factorised.log_prob Demo.fact x = Ok 40%Z
       /\ (support_check Demo.fact x = Ok true <->
           Forall2 (fun f xi =>
                      exists t, own_verdict f xi = Ok t
                                /\ elements t = [true])
                   (Factorised.factors Demo.fact) xs).
Proof.
  split; [reflexivity|].
  destruct (@log_prob_of_own_sample Demo.env [Demo.dist1; Demo.dist2] None
              Demo.fact [2] 0 eq_refl)
    as (xs & x & g' & Hxs & Hx & Hlp & Hsup).
  - repeat constructor.
  - repeat constructor.
  - repeat constructor; apply vector_factor_samples.
  - exists xs, x, g'. split; [exact Hxs|]. split; [exact Hx|].
    split; [exact Hlp|]. split; [|exact Hsup].
    vm_compute in Hx. injection Hx as <- _. reflexivity.
Defined.

(** ** Factors on different batches *)

Lemma Size_eqb_true (a b : Size) : Size_eqb a b = true -> a = b.
Proof.
  revert b. induction a as [|x a IH]; intros [|y b]; simpl;
    try discriminate; [reflexivity|].
  intros Hab. apply andb_prop in Hab. destruct Hab as [Hxy Hab].
  apply Nat.eqb_eq in Hxy. subst y. f_equal. now apply IH.
Qed.

Lemma cat_fold_Err {A : Type} (rest : list (tensor A)) (e : exn) :
  fold_left (fun acc u => a <- acc ;; cat2 a u) rest (Err e) = Err e.
Proof. induction rest as [|u rest IH]; simpl; auto. Qed.

Lemma cat_fold_mismatch {A : Type} (L : Size) (rest : list (tensor A)) :
  Forall (fun t => exists l w r, t = TN l w r) rest ->
  Exists (fun t => forall w r, t <> TN L w r) rest ->
  forall W R,
    fold_left (fun acc u => a <- acc ;; cat2 a u) rest (Ok (TN L W R))
    = Err RuntimeError.
Proof.
  intros Hall. induction Hall as [|u rest (l & w & r & ->) Hall IH];
    intros Hex W R; inversion Hex as [? ? Hu|? ? Hex']; subst; simpl.
  - destruct (Size_eqb L l) eqn:Hl.
    + apply Size_eqb_true in Hl. subst l. now destruct (Hu w r).
    + apply cat_fold_Err.
  - destruct (Size_eqb L l) eqn:Hl; [now apply IH | apply cat_fold_Err].
Qed.

Lemma Forall2_Forall_r {U T : Type} (P : U -> T -> Prop) (Q : T -> Prop)
  (l1 : list U) (l2 : list T) :
  Forall2 P l1 l2 -> (forall a b, P a b -> Q b) -> Forall Q l2.
Proof.
  intros HP HQ. induction HP as [|a b l1 l2 Hab HP IH]; constructor; eauto.
Qed.

Lemma filter_legacy_positive {A : Type} (xs : list (tensor A)) :
  Forall (fun x => exists l w r, x = TN l w r /\ 0 < w) xs ->
  filter (fun t => negb (legacy_empty t)) xs = xs.
Proof.
  intros Hxs. induction Hxs as [|x xs (l & w & r & -> & Hw) Hxs IH];
    [reflexivity|].
  simpl. rewrite IH. destruct l; [|reflexivity].
  destruct w; [lia | reflexivity].
Qed.

(** X14. Nothing compares the batch shapes of the factors at construction;
    when a factor's batch shape differs from the first one's, sampling
    raises RuntimeError in [torch.cat] (factors with a one-dimensional event
    of positive width, sampling as declared). *)
Theorem rsample_batch_mismatch_raises `{TorchEnv} (fs : list Distribution.t)
  (va : option bool) (d : Factorised.t) (sample_shape : Size) (g : rng) :
  Factorised.__init__ fs va = Ok d ->
  Forall (samples_as_declared sample_shape) fs ->
  Forall (fun f => exists w, Distribution.event_shape f = [w] /\ 0 < w) fs ->
  Exists (fun f => Distribution.batch_shape f <> Factorised.batch_shape d) fs ->
  Factorised.rsample d sample_shape g = Err RuntimeError.
Proof.
  intros Hd Hsample Hev Hex.
  destruct (@draw_declared _ sample_shape fs Hsample g)
    as (xs & g' & Hxs & Hall).
  apply (@Forall2_with_Forall _ _ _ _ _ _ Hev) in Hall.
  assert (Hall' : Forall2 (fun f x => exists w r,
                    x = TN (sample_shape ++ Distribution.batch_shape f) w r
                    /\ 0 < w) fs xs).
  { eapply Forall2_impl; [|exact Hall].
    intros f x [(w & Hw & Hpos) [Hwf Hs]].
    rewrite Hw, app_assoc in Hs.
    destruct (@shape_trailing_inv _ _ w x Hwf Hs) as [[_ (w' & r & ->)] Htr].
    simpl in Htr. subst w'. eauto. }
  clear Hall.
  apply init_Ok in Hd. destruct Hd as (_ & _ & Hf & _ & Hb & _).
  unfold Factorised.rsample. rewrite Hf, Hxs. cbn [bind fst snd].
  assert (Hpos : Forall (fun x => exists l w r, x = TN l w r /\ 0 < w) xs).
  { apply (@Forall2_Forall_r _ _ _ _ _ _ Hall').
    intros f x (w & r & -> & Hw). eauto. }
  clear Hxs.
  destruct Hall' as [|first x0 rest xr (w0 & r0 & -> & _) Hrest];
    [inversion Hex|].
  unfold cat. rewrite (@filter_legacy_positive _ _ Hpos). unfold cat_from.
  inversion Hex as [? ? Hfirst|? ? Hex']; subst; [congruence|].
  rewrite cat_fold_mismatch; [reflexivity| |].
  - apply (@Forall2_Forall_r _ _ _ _ _ _ Hrest).
    intros f x (w & r & -> & _). eauto.
  - rewrite Hb in Hex'. clear Hpos Hex Hb Hf Hsample Hev.
    induction Hrest as [|f x fs' xs' (w & r & -> & _) Hrest IH];
      inversion Hex' as [? ? Hf'|? ? Hex'']; subst.
    + apply Exists_cons_hd. intros w' r' Heq. injection Heq as Heq _ _.
      apply app_inv_head in Heq. congruence.
    + apply Exists_cons_tl. now apply IH.
Qed.

Lemma mixed_batches_samples :
  Forall (@samples_as_declared Demo.env [2])
         (Factorised.factors DemoStats.mixed_batches).
Proof. repeat constructor; apply vector_factor_samples. Qed.

Lemma rsample_batch_mismatch_raises_witness :
  Factorised.__init__ [Demo.vector_factor [5] 3; Demo.vector_factor [2] 4] None
  = Ok DemoStats.mixed_batches
  /\ Factorised.rsample DemoStats.mixed_batches [2] 0 = Err RuntimeError.
Proof.
  split; [reflexivity|].
  apply (@rsample_batch_mismatch_raises Demo.env
           [Demo.vector_factor [5] 3; Demo.vector_factor [2] 4] None
           DemoStats.mixed_batches [2] 0 eq_refl mixed_batches_samples).
  - repeat constructor; eexists; (split; [reflexivity | lia]).
  - apply Exists_cons_tl, Exists_cons_hd. intros Hb. discriminate Hb.
Defined.

(** ** The mean *)

Section Mean.
Context `{Moments.t}.

Lemma means_declared (fs : list Distribution.t) :
  Forall mean_as_declared fs ->
  exists ms,
    comprehension Moments.mean fs = Ok ms
    /\ Forall2 (fun f m => wf_tensor m = true
                           /\ shape m = Distribution.batch_shape f
                                        ++ Distribution.event_shape f) fs ms.
Proof.
  intros Hfs. induction Hfs as [|f fs (m & Hm & Hwf & Hs) Hfs IH]; simpl.
  - exists []. split; [reflexivity | constructor].
  - destruct IH as (ms & Hms & Hall). exists (m :: ms).
    rewrite Hm, Hms. split; [reflexivity|]. now constructor.
Qed.

End Mean.

(** X15. [mean] is the concatenation of the factors' means in factor order:
    for factors with a shared batch shape and a one-dimensional event whose
    means have their declared shape, it has shape [batch_shape +
    event_shape], and slicing it as [log_prob] slices a value gives the
    factors' means back. *)
Theorem mean_concatenates_factor_means `{Moments.t}
  (fs : list Distribution.t) (va : option bool) (d : Factorised.t) :
  Factorised.__init__ fs va = Ok d ->
  Forall (fun f => Distribution.batch_shape f = Factorised.batch_shape d) fs ->
  Forall (fun f => length (Distribution.event_shape f) = 1) fs ->
  Forall mean_as_declared fs ->
  exists ms m,
    comprehension Moments.mean (Factorised.factors d) = Ok ms
    /\ FactorisedStats.mean d = Ok m
    /\ shape m = Factorised.batch_shape d ++ Factorised.event_shape d
    /\ wf_tensor m = true
    /\ Factorised.partition_dimensions d m = iter ms.
Proof.
  intros Hd Hbatch Hev Hmean.
  destruct (means_declared Hmean) as (ms & Hms & Hall).
  assert (Hall' : Forall2 (fun f m =>
                    wf_tensor m = true
                    /\ shape m = Factorised.batch_shape d
                                 ++ Distribution.event_shape f) fs ms).
  { apply (@Forall2_with_Forall _ _ _ _ _ _ Hbatch) in Hall.
    eapply Forall2_impl; [|exact Hall].
    intros f m [Hb [Hwf Hs]]. split; [exact Hwf|]. now rewrite Hs, Hb. }
  destruct (@layout_of_pieces _ fs va d _ ms Hd Hev Hall')
    as (m & Hcat & Hshape & Hwf & Hparts).
  apply init_Ok in Hd. destruct Hd as (_ & _ & Hf & _).
  exists ms, m. rewrite Hf. repeat split; try assumption.
  unfold FactorisedStats.mean. rewrite Hf, Hms. exact Hcat.
Qed.

Lemma demo_means_declared :
  Forall (@mean_as_declared Demo.env DemoStats.moments)
         [Demo.dist1; Demo.dist2].
Proof.
  repeat constructor; eexists; (split; [reflexivity|]); split; reflexivity.
Qed.

Lemma mean_concatenates_factor_means_witness :
  Factorised.__init__ [Demo.dist1; Demo.dist2] None = Ok Demo.fact
  /\ exists ms m,
       comprehension (@Moments.mean Demo.env DemoStats.moments)
                     (Factorised.factors Demo.fact) = Ok ms
       /\ @FactorisedStats.mean Demo.env DemoStats.moments Demo.fact = Ok m
       /\ shape m = Factorised.batch_shape Demo.fact
                    ++ Factorised.event_shape Demo.fact
       /\ wf_tensor m = true
       /\ Factorised.partition_dimensions Demo.fact m = iter ms.
Proof.
  split; [reflexivity|].
  apply (@mean_concatenates_factor_means Demo.env DemoStats.moments
           [Demo.dist1; Demo.dist2] None Demo.fact eq_refl).
  - repeat constructor.
  - repeat constructor.
  - exact demo_means_declared.
Defined.

(** ** The variance *)

Lemma broadcast_scalar (s : Size) : broadcast [] s = Some s.
Proof. unfold broadcast. simpl. now rewrite rev_involutive. Qed.

Lemma broadcast_trailing (la lb : Size) (wa wb : nat) :
  2 <= wa -> 2 <= wb ->
  match broadcast (la ++ [wa]) (lb ++ [wb]) with
  | Some s => wa = wb /\ exists l, s = l ++ [wa]
  | None => True
  end.
Proof.
  intros Ha Hb. unfold broadcast. rewrite !rev_app_distr. simpl.
  destruct (Nat.eqb_spec wa wb) as [->|Hne]; simpl.
  - destruct (broadcast_rev (rev la) (rev lb)) as [s|]; simpl; [|exact I].
    split; [reflexivity|]. now exists (rev s).
  - destruct (Nat.eqb_spec wb 1); [lia|]. simpl.
    destruct (Nat.eqb_spec wa 1); [lia|]. exact I.
Qed.

Section Variance.
Context `{Moments.t}.
Variable shape_of : pyval -> Size.
Hypothesis Hadd : adds_by_broadcasting shape_of.

Lemma variance_sum_mismatch (w0 : nat) (fs : list Distribution.t) :
  2 <= w0 ->
  Forall (variance_as_declared shape_of) fs ->
  Forall (fun f => exists w, Distribution.event_shape f = [w] /\ 2 <= w) fs ->
  Exists (fun f => Distribution.event_shape f <> [w0]) fs ->
  forall acc L, shape_of acc = L ++ [w0] ->
    sum_from Moments.variance (iter fs) acc = Err RuntimeError.
Proof.
  intros Hw0 Hvar. destruct Hadd as [_ Hplus].
  induction Hvar as [|f fs (v & Hv & Hs) Hvar IH];
    intros Hev Hex acc L Hacc; [inversion Hex|].
  inversion Hev as [|? ? (w & Hw & Hw2) Hev']; subst.
  simpl. rewrite Hv. cbn [bind]. specialize (Hplus acc v).
  rewrite Hacc, Hs, Hw in Hplus.
  pose proof (broadcast_trailing L (Distribution.batch_shape f) Hw0 Hw2) as Hb.
  destruct (broadcast _ _) as [s|].
  - destruct Hb as [<- [l ->]]. destruct Hplus as (z & Hz & Hzs).
    rewrite Hz. cbn [bind].
    inversion Hex as [? ? Hf|? ? Hex']; subst; [congruence|].
    now apply (IH Hev' Hex' z l).
  - now rewrite Hplus.
Qed.

End Variance.

(** X16. [variance] adds the factors' variances as tensors.  When they have
    their declared shape [batch_shape + event_shape] and tensor addition
    broadcasts, factors with event widths of at least 2 that are not all
    equal make [variance] raise RuntimeError. *)
Theorem variance_of_unequal_widths_raises `{Moments.t}
  (shape_of : pyval -> Size) (d : Factorised.t) (first : Distribution.t)
  (rest : list Distribution.t) :
  adds_by_broadcasting shape_of ->
  Factorised.factors d = first :: rest ->
  Forall (variance_as_declared shape_of) (first :: rest) ->
  Forall (fun f => exists w, Distribution.event_shape f = [w] /\ 2 <= w)
         (first :: rest) ->
  Exists (fun f => Distribution.event_shape f
                   <> Distribution.event_shape first) rest ->
  FactorisedStats.variance d = Err RuntimeError.
Proof.
  intros Hadd Hf Hvar Hev Hex.
  inversion Hvar as [|? ? (v0 & Hv0 & Hs0) Hvar']; subst.
  inversion Hev as [|? ? (w0 & Hw0 & Hw2) Hev']; subst.
  unfold FactorisedStats.variance, py_sum. rewrite Hf. simpl.
  rewrite Hv0. cbn [bind].
  destruct Hadd as [Hzero Hplus]. pose proof (Hplus py_zero v0) as Hfirst.
  rewrite Hzero, broadcast_scalar in Hfirst.
  destruct Hfirst as (z & Hz & Hzs).
  rewrite Hz. cbn [bind].
  apply (@variance_sum_mismatch _ _ shape_of (conj Hzero Hplus) w0 rest Hw2
           Hvar' Hev')
    with (L := Distribution.batch_shape first).
  - now rewrite <- Hw0.
  - now rewrite Hzs, Hs0, Hw0.
Qed.

Lemma shape_env_adds_by_broadcasting :
  @adds_by_broadcasting ShapeDemo.env (fun s => s).
Proof.
  split; [reflexivity|]. intros x y. simpl.
  destruct (broadcast x y) as [s|]; [eauto | reflexivity].
Qed.

Lemma variance_of_unequal_widths_raises_witness :
  Factorised.factors ShapeDemo.fact
  = [ShapeDemo.vector_factor [5] 3; ShapeDemo.vector_factor [5] 4]
  /\ @FactorisedStats.variance ShapeDemo.env ShapeDemo.moments ShapeDemo.fact
     = Err RuntimeError.
Proof.
  split; [reflexivity|].
  apply (@variance_of_unequal_widths_raises ShapeDemo.env ShapeDemo.moments
           (fun s => s) ShapeDemo.fact
           (ShapeDemo.vector_factor [5] 3) [ShapeDemo.vector_factor [5] 4]
           shape_env_adds_by_broadcasting eq_refl).
  - repeat constructor; eexists; split; reflexivity.
  - repeat constructor; eexists; (split; [reflexivity | lia]).
  - apply Exists_cons_hd. intros Hs. discriminate Hs.
Defined.

(** ** Sums of values of one shape *)

Lemma broadcast_rev_refl (a : list nat) : broadcast_rev a a = Some a.
Proof.
  induction a as [|x a IH]; simpl; [reflexivity|].
  now rewrite Nat.eqb_refl, IH.
Qed.

Lemma broadcast_refl (s : Size) : broadcast s s = Some s.
Proof.
  unfold broadcast. rewrite broadcast_rev_refl. simpl.
  now rewrite rev_involutive.
Qed.

Section SameShape.
Context `{TorchEnv}.
Variable shape_of : pyval -> Size.
Hypothesis Hadd : adds_by_broadcasting shape_of.

Lemma sum_from_same_shape {T : Type} (f : T -> result pyval) (B : Size)
  (l : list T) (acc : pyval) :
  (forall x, In x l -> exists v, f x = Ok v /\ shape_of v = B) ->
  shape_of acc = B ->
  exists z, sum_from f (iter l) acc = Ok z /\ shape_of z = B.
Proof.
  destruct Hadd as [_ Hplus]. revert acc.
  induction l as [|x l IH]; intros acc Hl Hacc; simpl; [eauto|].
  destruct (Hl x (or_introl eq_refl)) as (v & Hv & Hs). rewrite Hv.
  cbn [bind]. specialize (Hplus acc v).
  rewrite Hacc, Hs, broadcast_refl in Hplus.
  destruct Hplus as (z & Hz & Hzs). rewrite Hz. cbn [bind].
  apply IH; [|exact Hzs]. intros y Hy. apply Hl. now right.
Qed.

Lemma py_sum_same_shape {T : Type} (f : T -> result pyval) (B : Size)
  (l : list T) :
  l <> [] ->
  (forall x, In x l -> exists v, f x = Ok v /\ shape_of v = B) ->
  exists z, py_sum f (iter l) = Ok z /\ shape_of z = B.
Proof.
  intros Hne Hl. destruct l as [|x l]; [congruence|].
  unfold py_sum. simpl.
  destruct (Hl x (or_introl eq_refl)) as (v & Hv & Hs). rewrite Hv.
  cbn [bind]. destruct Hadd as [Hzero Hplus]. specialize (Hplus py_zero v).
  rewrite Hzero, broadcast_scalar in Hplus.
  destruct Hplus as (z & Hz & Hzs). rewrite Hz. cbn [bind].
  apply sum_from_same_shape; [|congruence].
  intros y Hy. apply Hl. now right.
Qed.

End SameShape.

(** X17. When tensor addition broadcasts and every factor's entropy has the
    shape of the shared batch, [entropy] returns a value of shape
    [batch_shape]. *)
Theorem entropy_has_batch_shape `{Moments.t} (shape_of : pyval -> Size)
  (fs : list Distribution.t) (va : option bool) (d : Factorised.t) :
  adds_by_broadcasting shape_of ->
  Factorised.__init__ fs va = Ok d ->
  Forall (fun f => exists v, Moments.entropy f = Ok v
                             /\ shape_of v = Factorised.batch_shape d) fs ->
  exists z, FactorisedStats.entropy d = Ok z
            /\ shape_of z = Factorised.batch_shape d.
Proof.
  intros Hadd Hd Hent. apply init_Ok in Hd.
  destruct Hd as (Hne & _ & Hf & _).
  unfold FactorisedStats.entropy. rewrite Hf.
  apply (@py_sum_same_shape _ shape_of Hadd); [exact Hne|].
  rewrite Forall_forall in Hent. exact Hent.
Qed.

Lemma entropy_has_batch_shape_witness :
  Factorised.__init__
    [ShapeDemo.vector_factor [5] 3; ShapeDemo.vector_factor [5] 4] None
  = Ok ShapeDemo.fact
  /\ exists z, @FactorisedStats.entropy ShapeDemo.env ShapeDemo.moments
                 ShapeDemo.fact = Ok z
               /\ z = Factorised.batch_shape ShapeDemo.fact.
Proof.
  split; [reflexivity|].
  apply (@entropy_has_batch_shape ShapeDemo.env ShapeDemo.moments
           (fun s => s)
           [ShapeDemo.vector_factor [5] 3; ShapeDemo.vector_factor [5] 4]
           None ShapeDemo.fact shape_env_adds_by_broadcasting eq_refl).
  repeat constructor; eexists; split; reflexivity.
Defined.

(** X18. When tensor addition broadcasts and every factor's log-density on
    its slice has the leading shape of the value, [log_prob] returns a value
    of that shape: the trailing event axis is gone. *)
Theorem log_prob_has_leading_shape `{TorchEnv} (shape_of : pyval -> Size)
  (fs : list Distribution.t) (va : option bool) (d : Factorised.t)
  (lead : Size) (w : nat) (rows : list (list scalar)) :
  adds_by_broadcasting shape_of ->
  Factorised.__init__ fs va = Ok d ->
  (forall i, i < length (Factorised.factors d) ->
     exists x, factor_log_prob d (TN lead w rows) i = Ok x
               /\ shape_of x = lead) ->
  exists z, Factorised.log_prob d (TN lead w rows) = Ok z
            /\ shape_of z = lead.
Proof.
  intros Hadd Hd Hterm.
  pose proof (@init_ndims_length _ _ _ _ Hd) as Hlen.
  apply init_Ok in Hd. destruct Hd as (Hne & _ & Hf & _).
  rewrite (@log_prob_indexed _ d lead w rows Hlen). unfold sum_over.
  apply (@py_sum_same_shape _ shape_of Hadd).
  - rewrite Hf. destruct fs; [congruence | discriminate].
  - intros i Hi. apply in_seq in Hi. apply Hterm. lia.
Qed.

Lemma log_prob_has_leading_shape_witness :
  Factorised.__init__
    [ShapeDemo.vector_factor [5] 3; ShapeDemo.vector_factor [5] 4] None
  = Ok ShapeDemo.fact
  /\ exists z, Factorised.log_prob ShapeDemo.fact ShapeDemo.value = Ok z
               /\ z = [5].
Proof.
  split; [reflexivity|].
  apply (@log_prob_has_leading_shape ShapeDemo.env (fun s => s)
           [ShapeDemo.vector_factor [5] 3; ShapeDemo.vector_factor [5] 4]
           None ShapeDemo.fact [5] 7 (repeat [1; 2; 3; 4; 5; 6; 7]%Z 5)
           shape_env_adds_by_broadcasting eq_refl).
  intros i Hi. simpl in Hi.
  destruct i as [|[|i]]; [| |lia]; eexists; split; reflexivity.
Defined.

(** ** The divergence and marginals *)

Lemma comprehension_getitem_middle {T : Type} (pre l post : list T) :
  comprehension (getitem (pre ++ l ++ post))
                (map Z.of_nat (seq (length pre) (length l))) = Ok l.
Proof.
  revert pre. induction l as [|x l IH]; intros pre; [reflexivity|].
  cbn [length seq map comprehension app].
  rewrite getitem_nat, nth_error_app2, Nat.sub_diag by lia.
  cbn [nth_error bind].
  specialize (IH (pre ++ [x])).
  rewrite <- app_assoc, length_app, Nat.add_1_r in IH. cbn [app] in IH.
  now rewrite IH.
Qed.

Lemma comprehension_getitem_firstn {T : Type} (l : list T) (m : nat) :
  m <= length l ->
  comprehension (getitem l) (map Z.of_nat (seq 0 m)) = Ok (firstn m l).
Proof.
  intros Hm.
  pose proof (comprehension_getitem_middle [] (firstn m l) (skipn m l)) as Hc.
  cbn [app length] in Hc. rewrite firstn_skipn, length_firstn in Hc.
  now rewrite Nat.min_l in Hc by exact Hm.
Qed.

Lemma In_firstn {T : Type} (m : nat) (l : list T) (x : T) :
  In x (firstn m l) -> In x l.
Proof.
  intros Hin. rewrite <- (firstn_skipn m l). apply in_or_app. now left.
Qed.

(** X19. When [p] has more factors than [q], the divergence is the one
    between [q] and the marginal of [p] on its first [len(q.factors)]
    factors: the surplus factors of [p] take no part. *)
Theorem kl_is_kl_of_leading_marginal `{KLRegistry}
  (fs : list Distribution.t) (va : option bool) (p q : Factorised.t) :
  Factorised.__init__ fs va = Ok p ->
  0 < length (Factorised.factors q) <= length (Factorised.factors p) ->
  exists p',
    Factorised.marginal p
      (map Z.of_nat (seq 0 (length (Factorised.factors q)))) = Ok p'
    /\ _kl_factorised_factorised p q = _kl_factorised_factorised p' q.
Proof.
  intros Hp [Hpos Hle]. apply init_Ok in Hp.
  destruct Hp as (_ & Hev & Hf & _).
  set (m := length (Factorised.factors q)) in *.
  destruct (@init_succeeds _ (firstn m (Factorised.factors p))
              (Some (Factorised._validate_args p))) as [p' Hp'].
  - intros Hnil. apply (f_equal (@length _)) in Hnil.
    rewrite length_firstn in Hnil. simpl in Hnil. lia.
  - rewrite Forall_forall in *. intros f Hin. apply Hev. rewrite <- Hf.
    eapply In_firstn; eauto.
  - exists p'. split.
    + unfold Factorised.marginal.
      now rewrite comprehension_getitem_firstn by exact Hle.
    + apply init_Ok in Hp'. destruct Hp' as (_ & _ & Hf' & _).
      unfold _kl_factorised_factorised. rewrite Hf'. subst m.
      now rewrite <- combine_firstn_r.
Qed.

Lemma kl_is_kl_of_leading_marginal_witness :
  Factorised.__init__ [Demo.dist1; Demo.dist2] None = Ok Demo.fact
  /\ exists p',
       Factorised.marginal Demo.fact [0]%Z = Ok p'
       /\ @_kl_factorised_factorised Demo.env Demo.registry
            Demo.fact Demo.only_first
          = @_kl_factorised_factorised Demo.env Demo.registry
              p' Demo.only_first.
Proof.
  split; [reflexivity|].
  apply (@kl_is_kl_of_leading_marginal Demo.env Demo.registry
           [Demo.dist1; Demo.dist2] None Demo.fact Demo.only_first eq_refl).
  simpl. lia.
Defined.
